(** * dusk-blockchain: consensus plumbing, checked against its specification

    A shallow embedding of the parts of the node that the specification's
    testable properties talk about: the CompactSize integer codec, the
    selection and reduction collectors with their event queue, the two-step
    reducer, block acceptance, candidate validation, the header sync manager,
    the agreement store, the republisher and the closest peers of the
    kadcast router.  Every definition is a transcription of the Go
    function of the same name; what the sources only call (helpers of the
    repository that are not among them, external packages) is either modelled
    from the specification and marked as such, or taken as a section
    variable. *)

From Stdlib Require Import ZArith Lia Bool Ascii.
From stdpp Require Import gmap strings list sorting.
From Equations Require Import Equations.

(** Go functions returning [(T, error)]. *)
Inductive result (E A : Type) : Type :=
| Ok (a : A)
| Err (e : E).
Arguments Ok {E A} a.
Arguments Err {E A} e.

#[global] Instance result_ret {E} : MRet (result E) := fun _ a => Ok a.
#[global] Instance result_bind {E} : MBind (result E) := fun _ _ k r =>
  match r with
  | Ok a => k a
  | Err e => Err e
  end.

(** ** Package encoding: CompactSize integers (src/unnamed/part_001) *)
Module Encoding.
Local Open Scope Z_scope.

(** A [bytes.Buffer] seen from its reader: the unread bytes, oldest first.
    Writes append; reads consume from the front.  A byte is a [Z] in
    [0, 256). *)
Definition Buffer := list Z.

Definition is_byte (b : Z) : Prop := 0 <= b < 256.

Inductive error : Type :=
| EOF
| ErrUnexpectedEOF
| NonCanonicalEncoding.

(** [binary.LittleEndian.PutUintN]: byte [i] of the output is
    [byte(v >> (8*i))]; converting to a narrower unsigned type keeps the low
    bits, so the [n] produced bytes also are the encoding of [uintN(v)]. *)
Fixpoint le_put (n : nat) (v : Z) : list Z :=
  match n with
  | O => []
  | S n' => Z.land v 255 :: le_put n' (Z.shiftr v 8)
  end.

(** [binary.LittleEndian.UintN]: [b[0] | b[1]<<8 | ...]. *)
Fixpoint le_get (bs : list Z) : Z :=
  match bs with
  | [] => 0
  | b :: rest => Z.lor b (Z.shiftl (le_get rest) 8)
  end.

(** Modelled from the spec: the fixed-width integer helpers of package
    encoding (ReadUint8, ReadUint16LE, ReadUint32LE, ReadUint64LE and their
    Write counterparts) are not among the sources; the specification fixes
    them as "Uint8/Uint16/Uint32/Uint64 in little-endian".  Reading [n] bytes
    from a buffer holding fewer fails with io.EOF on an empty buffer and
    io.ErrUnexpectedEOF otherwise; writing to a [bytes.Buffer] cannot fail. *)
Definition read_uint (n : nat) (r : Buffer) : result error (Z * Buffer) :=
  if decide (n <= length r)%nat then Ok (le_get (take n r), drop n r)
  else match r with
       | [] => Err EOF
       | _ => Err ErrUnexpectedEOF
       end.

Definition write_uint (n : nat) (w : Buffer) (v : Z) : result error Buffer :=
  Ok (w ++ le_put n v).

Definition ReadUint8 := read_uint 1.
Definition ReadUint16LE := read_uint 2.
Definition ReadUint32LE := read_uint 4.
Definition ReadUint64LE := read_uint 8.
Definition WriteUint8 := write_uint 1.
Definition WriteUint16LE := write_uint 2.
Definition WriteUint32LE := write_uint 4.
Definition WriteUint64LE := write_uint 8.

(** ReadVarInt reads the discriminator byte of a CompactSize int, and then
    deserializes the number accordingly. *)
Definition ReadVarInt (r : Buffer) : result error (Z * Buffer) :=
  '(d, r) ← ReadUint8 r;
  if decide (d = 0xff) then
    '(rv, r) ← ReadUint64LE r;
    if decide (rv < 0x100000000) then Err NonCanonicalEncoding else Ok (rv, r)
  else if decide (d = 0xfe) then
    '(rv, r) ← ReadUint32LE r;
    if decide (rv < 0x10000) then Err NonCanonicalEncoding else Ok (rv, r)
  else if decide (d = 0xfd) then
    '(rv, r) ← ReadUint16LE r;
    if decide (rv < 0xfd) then Err NonCanonicalEncoding else Ok (rv, r)
  else Ok (d, r).

(** WriteVarInt writes a CompactSize integer with a number of bytes
    depending on its value. *)
Definition WriteVarInt (w : Buffer) (v : Z) : result error Buffer :=
  if decide (v < 0xfd) then WriteUint8 w v
  else if decide (v <= 2 ^ 16 - 1) then
    w ← WriteUint8 w 0xfd; WriteUint16LE w v
  else if decide (v <= 2 ^ 32 - 1) then
    w ← WriteUint8 w 0xfe; WriteUint32LE w v
  else
    w ← WriteUint8 w 0xff; WriteUint64LE w v.

(** VarIntEncodeSize returns the number of bytes needed to serialize a
    CompactSize int of size v. *)
Definition VarIntEncodeSize (v : Z) : Z :=
  if decide (v < 0xfd) then 1
  else if decide (v <= 2 ^ 16 - 1) then 3
  else if decide (v <= 2 ^ 32 - 1) then 5
  else 9.

(** The four wire forms the specification names, to state which one the
    writer picks and what a non-canonical encoding is. *)
Inductive form : Type := Lit | U16 | U32 | U64.

#[global] Instance form_eq_dec : EqDecision form.
Proof. solve_decision. Defined.

Definition form_encoding (f : form) (v : Z) : list Z :=
  match f with
  | Lit => [v]
  | U16 => 0xfd :: le_put 2 v
  | U32 => 0xfe :: le_put 4 v
  | U64 => 0xff :: le_put 8 v
  end.

(** The largest value a form can carry. *)
Definition form_max (f : form) : Z :=
  match f with
  | Lit => 0xfc
  | U16 => 0xffff
  | U32 => 0xffffffff
  | U64 => 2 ^ 64 - 1
  end.

(** The form the specification prescribes for a value. *)
Definition spec_form (v : Z) : form :=
  if decide (v < 0xfd) then Lit
  else if decide (v <= 0xffff) then U16
  else if decide (v <= 0xffffffff) then U32
  else U64.

(** An encoding of [v] in form [f] is non-canonical when [v] is
    representable in a smaller form. *)
Definition non_canonical (f : form) (v : Z) : Prop :=
  0 <= v <= form_max f /\ f <> spec_form v.

Example write_fc : WriteVarInt [] 0xfc = Ok [0xfc].
Proof. reflexivity. Qed.

Example write_fd : WriteVarInt [] 0xfd = Ok [0xfd; 0xfd; 0].
Proof. reflexivity. Qed.

Example write_10000 : WriteVarInt [] 0x10000 = Ok [0xfe; 0; 0; 1; 0].
Proof. reflexivity. Qed.

Example read_short : ReadVarInt [0xfd; 1] = Err ErrUnexpectedEOF.
Proof. reflexivity. Qed.

Example read_padded_literal : ReadVarInt [0xfd; 0x10; 0] = Err NonCanonicalEncoding.
Proof. reflexivity. Qed.

(** *** Little-endian bytes as arithmetic *)

Lemma lor_shiftl_byte (b x : Z) :
  is_byte b -> Z.lor b (Z.shiftl x 8) = b + 256 * x.
Proof.
  intros Hb.
  assert (Hdisj : Z.land b (Z.shiftl x 8) = 0).
  { apply Z.bits_inj'. intros n Hn.
    rewrite Z.land_spec, Z.bits_0.
    destruct (Z.lt_ge_cases n 8) as [Hlt | Hge].
    - rewrite (Z.shiftl_spec_low x 8 n Hlt). apply andb_false_r.
    - replace b with (b mod 2 ^ 8).
      + rewrite Z.mod_pow2_bits_high by lia. reflexivity.
      + apply Z.mod_small. unfold is_byte in Hb. lia. }
  pose proof (Z.add_lor_land b (Z.shiftl x 8)) as Hadd.
  rewrite Hdisj, Z.add_0_r in Hadd.
  rewrite Hadd, Z.shiftl_mul_pow2 by lia. lia.
Qed.

Lemma land_255_byte (v : Z) : is_byte (Z.land v 255).
Proof.
  change 255 with (Z.ones 8). rewrite Z.land_ones by lia.
  unfold is_byte. apply Z.mod_pos_bound. lia.
Qed.

Lemma length_le_put (n : nat) (v : Z) : length (le_put n v) = n.
Proof. revert v. induction n as [| n IH]; intros v; simpl; [reflexivity | now rewrite IH]. Qed.

Lemma le_put_bytes (n : nat) (v : Z) : Forall is_byte (le_put n v).
Proof.
  revert v. induction n as [| n IH]; intros v; simpl; constructor.
  - apply land_255_byte.
  - apply IH.
Qed.

(** Decoding what was encoded on [n] bytes gives the value truncated to
    [8 * n] bits, which is Go's conversion to [uintN]. *)
Lemma le_get_put (n : nat) (v : Z) :
  le_get (le_put n v) = v mod 2 ^ (8 * Z.of_nat n).
Proof.
  revert v. induction n as [| n IH]; intros v.
  - simpl. now rewrite Z.mod_1_r.
  - cbn [le_put le_get]. rewrite lor_shiftl_byte by apply land_255_byte.
    rewrite IH. change 255 with (Z.ones 8).
    rewrite Z.land_ones, Z.shiftr_div_pow2 by lia.
    replace (8 * Z.of_nat (S n)) with (8 + 8 * Z.of_nat n) by lia.
    rewrite Z.pow_add_r by lia.
    rewrite Z.rem_mul_r by lia. reflexivity.
Qed.

Lemma le_get_put_small (n : nat) (v : Z) :
  0 <= v < 2 ^ (8 * Z.of_nat n) -> le_get (le_put n v) = v.
Proof. intros Hv. rewrite le_get_put. now apply Z.mod_small. Qed.

Lemma read_uint_put (n : nat) (v : Z) (rest : Buffer) :
  read_uint n (le_put n v ++ rest) = Ok (v mod 2 ^ (8 * Z.of_nat n), rest).
Proof.
  unfold read_uint. rewrite length_app, length_le_put.
  destruct (decide (n <= n + length rest)%nat) as [_ | Hn]; [| lia].
  rewrite take_app_length', drop_app_length' by (symmetry; apply length_le_put).
  now rewrite le_get_put.
Qed.

Lemma read_uint8_cons (b : Z) (rest : Buffer) :
  is_byte b -> ReadUint8 (b :: rest) = Ok (b, rest).
Proof.
  intros Hb. unfold ReadUint8, read_uint. simpl.
  destruct (decide (1 <= S (length rest))%nat) as [_ | Hn]; [| lia].
  simpl. rewrite drop_0. now rewrite Z.lor_0_r.
Qed.

(** *** What the writer emits *)

Lemma WriteVarInt_form (w : Buffer) (v : Z) :
  0 <= v -> WriteVarInt w v = Ok (w ++ form_encoding (spec_form v) v).
Proof.
  intros Hv. unfold WriteVarInt, spec_form.
  repeat case_decide; try lia;
    unfold WriteUint8, WriteUint16LE, WriteUint32LE, WriteUint64LE, write_uint;
    cbn [mbind result_bind form_encoding le_put];
    rewrite <- ?app_assoc; try reflexivity.
  change 255 with (Z.ones 8). rewrite Z.land_ones by lia.
  rewrite Z.mod_small by lia. reflexivity.
Qed.

Lemma VarIntEncodeSize_length (v : Z) :
  VarIntEncodeSize v = Z.of_nat (length (form_encoding (spec_form v) v)).
Proof. unfold VarIntEncodeSize, spec_form. repeat case_decide; try lia; reflexivity. Qed.

(** *** What the reader accepts *)

Lemma ReadVarInt_form (f : form) (v : Z) (rest : Buffer) :
  0 <= v <= form_max f ->
  ReadVarInt (form_encoding f v ++ rest) =
    if decide (f = spec_form v) then Ok (v, rest) else Err NonCanonicalEncoding.
Proof.
  intros Hv. unfold ReadVarInt.
  destruct f; cbn [form_encoding form_max app] in *;
    (rewrite read_uint8_cons by (unfold is_byte; lia));
    cbn [mbind result_bind];
    unfold ReadUint16LE, ReadUint32LE, ReadUint64LE;
    rewrite ?read_uint_put; cbn [mbind result_bind];
    rewrite ?Z.mod_small by (simpl; lia);
    unfold spec_form; repeat case_decide; try lia; congruence.
Qed.

Lemma spec_form_fits (v : Z) : 0 <= v < 2 ^ 64 -> 0 <= v <= form_max (spec_form v).
Proof. intros Hv. unfold spec_form. repeat case_decide; simpl; lia. Qed.

Lemma le_get_range (bs : list Z) :
  Forall is_byte bs -> 0 <= le_get bs < 2 ^ (8 * Z.of_nat (length bs)).
Proof.
  induction 1 as [| b bs Hb _ IH]; [simpl; lia |].
  cbn [le_get length]. rewrite lor_shiftl_byte by exact Hb.
  replace (8 * Z.of_nat (S (length bs))) with (8 + 8 * Z.of_nat (length bs)) by lia.
  rewrite Z.pow_add_r by lia. unfold is_byte in Hb. nia.
Qed.

Lemma le_put_get (bs : list Z) :
  Forall is_byte bs -> le_put (length bs) (le_get bs) = bs.
Proof.
  induction 1 as [| b bs Hb Hbs IH]; [reflexivity |].
  cbn [le_get length le_put]. rewrite lor_shiftl_byte by exact Hb.
  change 255 with (Z.ones 8).
  rewrite Z.land_ones, Z.shiftr_div_pow2 by lia.
  unfold is_byte in Hb. change (2 ^ 8) with 256.
  assert (Hmod : (b + 256 * le_get bs) mod 256 = b).
  { rewrite (Z.mul_comm 256), Z.mod_add by lia. apply Z.mod_small. lia. }
  assert (Hdiv : (b + 256 * le_get bs) / 256 = le_get bs).
  { rewrite (Z.mul_comm 256), Z.div_add by lia. rewrite Z.div_small by lia. lia. }
  now rewrite Hmod, Hdiv, IH.
Qed.

Lemma read_uint_Ok (n : nat) (r : Buffer) (v : Z) (rest : Buffer) :
  Forall is_byte r ->
  read_uint n r = Ok (v, rest) ->
  r = le_put n v ++ rest /\ 0 <= v < 2 ^ (8 * Z.of_nat n) /\ Forall is_byte rest.
Proof.
  intros Hr. unfold read_uint.
  destruct (decide (n <= length r)%nat) as [Hn | Hn];
    [| destruct r; discriminate].
  intros [= <- <-].
  assert (Hlen : length (take n r) = n) by (rewrite length_take_le; lia).
  assert (Htake : Forall is_byte (take n r)) by now apply Forall_take.
  pose proof (le_put_get (take n r) Htake) as Hput.
  pose proof (le_get_range (take n r) Htake) as Hrange.
  rewrite Hlen in Hput, Hrange.
  split; [| split].
  - now rewrite Hput, take_drop.
  - exact Hrange.
  - now apply Forall_drop.
Qed.

(** Whatever [ReadVarInt] accepts is the encoding [WriteVarInt] produces
    for the value read: no other byte sequence decodes. *)
Lemma ReadVarInt_accepts_canonical_only (r : Buffer) (v : Z) (rest : Buffer) :
  Forall is_byte r ->
  ReadVarInt r = Ok (v, rest) ->
  0 <= v < 2 ^ 64 /\ r = form_encoding (spec_form v) v ++ rest.
Proof.
  intros Hr. unfold ReadVarInt.
  destruct (ReadUint8 r) as [[d r1] |] eqn:Hd; [| discriminate].
  apply (read_uint_Ok 1 r d r1 Hr) in Hd as (-> & Hdr & Hr1).
  cbn [mbind result_bind].
  assert (Hd8 : Z.land d 255 = d).
  { change 255 with (Z.ones 8). rewrite Z.land_ones by lia. apply Z.mod_small. lia. }
  cbn [le_put app]. rewrite Hd8.
  repeat case_decide.
  - destruct (ReadUint64LE r1) as [[rv r2] |] eqn:Hrv; [| discriminate].
    apply (read_uint_Ok 8 r1 rv r2 Hr1) in Hrv as (-> & Hrange & _).
    cbn [mbind result_bind]. case_decide; [discriminate |].
    intros [= <- <-]. split; [lia |].
    unfold spec_form. repeat case_decide; try lia. subst d. reflexivity.
  - destruct (ReadUint32LE r1) as [[rv r2] |] eqn:Hrv; [| discriminate].
    apply (read_uint_Ok 4 r1 rv r2 Hr1) in Hrv as (-> & Hrange & _).
    cbn [mbind result_bind]. case_decide; [discriminate |].
    intros [= <- <-]. split; [lia |].
    unfold spec_form. repeat case_decide; try lia. subst d. reflexivity.
  - destruct (ReadUint16LE r1) as [[rv r2] |] eqn:Hrv; [| discriminate].
    apply (read_uint_Ok 2 r1 rv r2 Hr1) in Hrv as (-> & Hrange & _).
    cbn [mbind result_bind]. case_decide; [discriminate |].
    intros [= <- <-]. split; [lia |].
    unfold spec_form. repeat case_decide; try lia. subst d. reflexivity.
  - intros [= <- <-]. split; [lia |].
    unfold spec_form. repeat case_decide; try lia. reflexivity.
Qed.

Lemma ReadVarInt_accepts_canonical_only_witness :
  0 <= 0xfd < 2 ^ 64 /\
  [0xfd; 0xfd; 0; 9] = form_encoding (spec_form 0xfd) 0xfd ++ [9].
Proof.
  apply (ReadVarInt_accepts_canonical_only [0xfd; 0xfd; 0; 9] 0xfd [9]).
  - repeat constructor; unfold is_byte; lia.
  - reflexivity.
Defined.

(** C7. Varint round trip and canonicity: for every [v] in [0, 2^64),
    [WriteVarInt] emits the form the specification prescribes for [v]
    (one literal byte below 0xfd, 0xfd and a u16 up to 0xffff, 0xfe and a u32
    up to 0xffffffff, 0xff and a u64 otherwise) and [ReadVarInt] reads [v]
    back from it, leaving what follows in the buffer; and [ReadVarInt] returns
    the non-canonical-encoding error on every encoding of a value [u] in a
    form [f] larger than the one [u] fits in. *)
Theorem varint_roundtrip_canonical (v : Z) (rest : Buffer) (f : form) (u : Z) :
  0 <= v < 2 ^ 64 ->
  (exists enc,
      WriteVarInt [] v = Ok enc /\
      enc = form_encoding (spec_form v) v /\
      ReadVarInt (enc ++ rest) = Ok (v, rest)) /\
  (non_canonical f u ->
   ReadVarInt (form_encoding f u ++ rest) = Err NonCanonicalEncoding).
Proof.
  intros Hv. split.
  - exists (form_encoding (spec_form v) v). split; [| split].
    + rewrite WriteVarInt_form by lia. reflexivity.
    + reflexivity.
    + rewrite ReadVarInt_form by now apply spec_form_fits.
      now rewrite decide_True.
  - intros [Hu Hf]. rewrite ReadVarInt_form by exact Hu.
    now rewrite decide_False.
Qed.

Lemma varint_roundtrip_canonical_witness :
  0 <= 0x10000 < 2 ^ 64 /\
  ((exists enc,
      WriteVarInt [] 0x10000 = Ok enc /\
      enc = form_encoding (spec_form 0x10000) 0x10000 /\
      ReadVarInt (enc ++ [7]) = Ok (0x10000, [7])) /\
   (non_canonical U32 0xfc ->
    ReadVarInt (form_encoding U32 0xfc ++ [7]) = Err NonCanonicalEncoding)).
Proof.
  split; [lia |]. apply (varint_roundtrip_canonical 0x10000 [7] U32 0xfc). lia.
Defined.

(** *** Sizes, sequences and truncated input *)

Lemma form_encoding_bytes (v : Z) :
  0 <= v -> Forall is_byte (form_encoding (spec_form v) v).
Proof.
  intros Hv. unfold spec_form.
  repeat case_decide; cbn [form_encoding]; constructor;
    try (unfold is_byte; lia); try apply le_put_bytes; constructor.
Qed.

(** [WriteVarInt] only appends to the buffer, what it appends are bytes, and
    their number is the one [VarIntEncodeSize] announces. *)
Theorem WriteVarInt_appends_size (w : Buffer) (v : Z) :
  0 <= v < 2 ^ 64 ->
  exists enc,
    WriteVarInt w v = Ok (w ++ enc) /\
    Forall is_byte enc /\
    Z.of_nat (length enc) = VarIntEncodeSize v.
Proof.
  intros Hv. exists (form_encoding (spec_form v) v). split; [| split].
  - apply WriteVarInt_form. lia.
  - apply form_encoding_bytes. lia.
  - symmetry. apply VarIntEncodeSize_length.
Qed.

Lemma WriteVarInt_appends_size_witness :
  exists enc,
    WriteVarInt [1; 2] 0x1234 = Ok ([1; 2] ++ enc) /\
    Forall is_byte enc /\
    Z.of_nat (length enc) = VarIntEncodeSize 0x1234.
Proof. apply (WriteVarInt_appends_size [1; 2] 0x1234). lia. Defined.

(** Two integers written one after the other are read back in the same
    order, and the second read leaves what followed them. *)
Theorem varint_sequence (v1 v2 : Z) (rest : Buffer) :
  0 <= v1 < 2 ^ 64 ->
  0 <= v2 < 2 ^ 64 ->
  exists w1 w2 r1,
    WriteVarInt [] v1 = Ok w1 /\
    WriteVarInt w1 v2 = Ok w2 /\
    ReadVarInt (w2 ++ rest) = Ok (v1, r1) /\
    ReadVarInt r1 = Ok (v2, rest).
Proof.
  intros Hv1 Hv2.
  exists (form_encoding (spec_form v1) v1),
    (form_encoding (spec_form v1) v1 ++ form_encoding (spec_form v2) v2),
    (form_encoding (spec_form v2) v2 ++ rest).
  split; [| split; [| split]].
  - rewrite WriteVarInt_form by lia. reflexivity.
  - rewrite WriteVarInt_form by lia. reflexivity.
  - rewrite <- app_assoc, ReadVarInt_form by now apply spec_form_fits.
    now rewrite decide_True.
  - rewrite ReadVarInt_form by now apply spec_form_fits.
    now rewrite decide_True.
Qed.

Lemma varint_sequence_witness :
  exists w1 w2 r1,
    WriteVarInt [] 0xfc = Ok w1 /\
    WriteVarInt w1 0x100000000 = Ok w2 /\
    ReadVarInt (w2 ++ [7]) = Ok (0xfc, r1) /\
    ReadVarInt r1 = Ok (0x100000000, [7]).
Proof. apply (varint_sequence 0xfc 0x100000000 [7]); lia. Defined.

Lemma read_uint_short (n : nat) (r : Buffer) :
  (length r < n)%nat ->
  exists e, read_uint n r = Err e /\ e <> NonCanonicalEncoding.
Proof.
  intros Hn. unfold read_uint. rewrite decide_False by lia.
  destruct r; eexists; split; try reflexivity; discriminate.
Qed.

(** A truncated encoding never decodes: on every proper prefix of what
    [WriteVarInt] produces, [ReadVarInt] fails with an end-of-input error. *)
Theorem ReadVarInt_truncated (v : Z) (p s : Buffer) :
  0 <= v < 2 ^ 64 ->
  WriteVarInt [] v = Ok (p ++ s) ->
  s <> [] ->
  exists e, ReadVarInt p = Err e /\ e <> NonCanonicalEncoding.
Proof.
  intros Hv Hw Hs. rewrite WriteVarInt_form in Hw by lia.
  injection Hw as Hw. simpl in Hw.
  assert (Hlen : (length p < length (form_encoding (spec_form v) v))%nat).
  { rewrite Hw, length_app. destruct s; [contradiction | simpl; lia]. }
  unfold ReadVarInt.
  destruct p as [| d p].
  { exists EOF. split; [reflexivity | discriminate]. }
  assert (Hd : ReadUint8 (d :: p) = Ok (d, p)).
  { unfold ReadUint8, read_uint. simpl.
    destruct (decide (1 <= S (length p))%nat) as [_ | Hn]; [| lia].
    simpl. rewrite drop_0. now rewrite Z.lor_0_r. }
  rewrite Hd. cbn [mbind result_bind].
  unfold spec_form in Hw, Hlen.
  repeat case_decide; cbn [form_encoding] in Hw, Hlen;
    injection Hw as Hd' Hp; subst d; cbn [length] in Hlen;
    rewrite ?length_le_put in Hlen; try lia.
  - destruct (read_uint_short 2 p) as (e & He & Hne); [lia |].
    unfold ReadUint16LE. rewrite He. exists e. split; [reflexivity | exact Hne].
  - destruct (read_uint_short 4 p) as (e & He & Hne); [lia |].
    unfold ReadUint32LE. rewrite He. exists e. split; [reflexivity | exact Hne].
  - destruct (read_uint_short 8 p) as (e & He & Hne); [lia |].
    unfold ReadUint64LE. rewrite He. exists e. split; [reflexivity | exact Hne].
Qed.

Lemma ReadVarInt_truncated_witness :
  exists e, ReadVarInt [0xfe; 0; 0] = Err e /\ e <> NonCanonicalEncoding.
Proof.
  apply (ReadVarInt_truncated 0x10000 [0xfe; 0; 0] [1; 0]).
  - lia.
  - reflexivity.
  - discriminate.
Defined.

End Encoding.

(** ** The event queue shared by the collectors (consensus.EventQueue) *)
Module EventQueue.
Local Open Scope Z_scope.

(** Modelled from the spec: consensus.EventQueue is used by both collectors
    but is not among the sources.  The specification gives it as a "nested
    mapping Round -> Step -> ordered sequence of events" with the operations
    below. *)
Abbreviation EventQueue Event := (gmap Z (gmap Z (list Event))).

Section Queue.
Context {Event : Type}.
#[local] Abbreviation Queue := (EventQueue Event).

Definition NewEventQueue : Queue := ∅.

(** The events stored under a round and a step (none when either key is
    missing). *)
Definition stored (q : Queue) (round step : Z) : list Event :=
  default [] (q !! round ≫= λ steps, steps !! step).

(** Modelled from the spec: "PutEvent(round, step, ev)" appends to the
    sequence kept for [(round, step)]. *)
Definition PutEvent (q : Queue) (round step : Z) (ev : Event) : Queue :=
  <[round := <[step := stored q round step ++ [ev]]> (default ∅ (q !! round))]> q.

(** Modelled from the spec: "GetEvents(round, step) (drain)" returns the
    sequence of [(round, step)] and removes it. *)
Definition GetEvents (q : Queue) (round step : Z) : list Event * Queue :=
  (stored q round step,
   match q !! round with
   | Some steps => <[round := delete step steps]> q
   | None => q
   end).

(** Modelled from the spec: "ConsumeUntil(round) (drop all entries with
    Round < round)". *)
Definition ConsumeUntil (q : Queue) (round : Z) : Queue :=
  filter (λ entry, round <= entry.1) q.

(** Modelled from the spec: "Clear(round) (drop all entries at that
    round)". *)
Definition Clear (q : Queue) (round : Z) : Queue :=
  delete round q.

(** An event is queued when it sits in the sequence of some step of the
    round. *)
Definition queued (q : Queue) (round : Z) (ev : Event) : Prop :=
  exists step, ev ∈ stored q round step.

Lemma stored_PutEvent_eq (q : Queue) (round step : Z) (ev : Event) :
  stored (PutEvent q round step ev) round step = stored q round step ++ [ev].
Proof.
  unfold PutEvent. unfold stored at 1.
  rewrite lookup_insert_eq. simpl. now rewrite lookup_insert_eq.
Qed.

Lemma queued_PutEvent (q : Queue) (round step : Z) (ev : Event) :
  queued (PutEvent q round step ev) round ev.
Proof. exists step. rewrite stored_PutEvent_eq. set_solver. Qed.

Lemma lookup_ConsumeUntil_lt (q : Queue) (round r : Z) :
  r < round -> ConsumeUntil q round !! r = None.
Proof.
  intros Hr. unfold ConsumeUntil.
  apply map_lookup_filter_None. right. intros steps _. simpl. lia.
Qed.

Lemma lookup_ConsumeUntil_ge (q : Queue) (round r : Z) :
  round <= r -> ConsumeUntil q round !! r = q !! r.
Proof.
  intros Hr. unfold ConsumeUntil.
  destruct (q !! r) as [steps |] eqn:Hq.
  - apply map_lookup_filter_Some. split; [exact Hq | simpl; lia].
  - apply map_lookup_filter_None. now left.
Qed.

Lemma stored_None (q : Queue) (round step : Z) :
  q !! round = None -> stored q round step = [].
Proof. intros Hq. unfold stored. now rewrite Hq. Qed.

Lemma queued_lookup (q : Queue) (round : Z) (ev : Event) :
  queued q round ev -> is_Some (q !! round).
Proof.
  intros [step Hin]. destruct (q !! round) eqn:Hq; [eauto |].
  rewrite stored_None in Hin by exact Hq. set_solver.
Qed.

End Queue.
End EventQueue.

(** ** Package selection: the score collector (src/unnamed/part_002) *)
Module Selection.
Import EventQueue.
Local Open Scope Z_scope.

Section Collector.
Context {Event Wire Error : Type}.
(** The [consensus.EventHandler] capability the collector is built with. *)
Context (Unmarshal : Wire -> result Error Event).
Context (Verify : Event -> result Error ()).
(** [ExtractHeader] fills in the [(Round, Step)] of an event. *)
Context (ExtractHeader : Event -> Z * Z).

(** [wire.EventSelector], as far as the collector drives it: the events sent
    on its [EventChan] and the stop signals sent on its [StopChan], oldest
    first. *)
Record EventSelector : Type := {
  EventChan : list Event;
  StopChan : list bool;
}.

Definition NewEventSelector : EventSelector :=
  {| EventChan := []; StopChan := [] |}.

(** The collector; [stopped] keeps the selectors that [stopSelection] let go
    of, so that the stop signal sent to them stays observable. *)
Record collector : Type := {
  CurrentRound : Z;
  CurrentStep : Z;
  queue : EventQueue Event;
  selector : option EventSelector;
  completed : bool;
  stopped : list EventSelector;
}.

Definition isObsolete (s : collector) (round step : Z) : bool :=
  bool_decide (round < CurrentRound s) || bool_decide (step < CurrentStep s).

Definition isEarly (s : collector) (round step : Z) : bool :=
  bool_decide (round > CurrentRound s) || bool_decide (step > CurrentStep s)
  || match selector s with None => true | Some _ => false end.

(** process sends the event to the selector.  The messages have already
    been validated and verified. *)
Definition process (s : collector) (ev : Event) : collector :=
  let '(round, step) := ExtractHeader ev in
  (* Not anymore *)
  if isObsolete s round step then s
  (* Not yet *)
  else if isEarly s round step then
    {| CurrentRound := CurrentRound s; CurrentStep := CurrentStep s;
       queue := PutEvent (queue s) round step ev;
       selector := selector s; completed := completed s; stopped := stopped s |}
  (* Just right *)
  else
    {| CurrentRound := CurrentRound s; CurrentStep := CurrentStep s;
       queue := queue s;
       selector :=
         (λ sel, {| EventChan := EventChan sel ++ [ev]; StopChan := StopChan sel |})
           <$> selector s;
       completed := completed s; stopped := stopped s |}.

(** Collect delegates unmarshalling and verification to the handler and
    then processes the event. *)
Definition Collect (s : collector) (r : Wire) : result Error collector :=
  ev ← Unmarshal r;
  _ ← Verify ev;
  mret (process s ev).

(** stopSelection notifies the selector to stop selecting. *)
Definition stopSelection (s : collector) : collector :=
  match selector s with
  | Some sel =>
      {| CurrentRound := CurrentRound s; CurrentStep := CurrentStep s;
         queue := queue s; selector := None; completed := completed s;
         stopped :=
           stopped s ++ [{| EventChan := EventChan sel; StopChan := StopChan sel ++ [true] |}] |}
  | None => s
  end.

(** UpdateRound stops the selection and cleans up the queue up to the round
    specified. *)
Definition UpdateRound (s : collector) (round : Z) : collector :=
  let s := {| CurrentRound := round; CurrentStep := 1; queue := queue s;
              selector := selector s; completed := completed s;
              stopped := stopped s |} in
  let s := stopSelection s in
  {| CurrentRound := CurrentRound s; CurrentStep := CurrentStep s;
     queue := ConsumeUntil (queue s) (CurrentRound s);
     selector := selector s; completed := false; stopped := stopped s |}.

(** *** Classification of incoming events *)

Lemma isObsolete_spec (s : collector) (round step : Z) :
  isObsolete s round step = true <-> round < CurrentRound s \/ step < CurrentStep s.
Proof.
  unfold isObsolete. rewrite orb_true_iff, !bool_decide_eq_true. reflexivity.
Qed.

Lemma process_obsolete (s : collector) (ev : Event) :
  isObsolete s (ExtractHeader ev).1 (ExtractHeader ev).2 = true ->
  process s ev = s.
Proof.
  unfold process. destruct (ExtractHeader ev) as [round step]. simpl.
  now intros ->.
Qed.

Lemma process_early (s : collector) (ev : Event) :
  isObsolete s (ExtractHeader ev).1 (ExtractHeader ev).2 = false ->
  isEarly s (ExtractHeader ev).1 (ExtractHeader ev).2 = true ->
  queue (process s ev) =
    PutEvent (queue s) (ExtractHeader ev).1 (ExtractHeader ev).2 ev.
Proof.
  unfold process. destruct (ExtractHeader ev) as [round step]. simpl.
  now intros -> ->.
Qed.

(** An event of a later round whose step lies below the collector's current
    step takes the "not anymore" exit: it is neither queued nor selected. *)
Lemma process_later_round_lower_step (s : collector) (ev : Event) :
  CurrentRound s < (ExtractHeader ev).1 ->
  (ExtractHeader ev).2 < CurrentStep s ->
  process s ev = s.
Proof.
  intros _ Hstep. apply process_obsolete, isObsolete_spec. now right.
Qed.

(** An event of a later round is queued exactly when its step has not
    fallen below the current one. *)
Lemma process_later_round_queued (s : collector) (ev : Event) :
  CurrentRound s < (ExtractHeader ev).1 ->
  CurrentStep s <= (ExtractHeader ev).2 ->
  queued (queue (process s ev)) (ExtractHeader ev).1 ev.
Proof.
  intros Hround Hstep. rewrite process_early.
  - apply queued_PutEvent.
  - apply not_true_is_false. rewrite isObsolete_spec. lia.
  - unfold isEarly. rewrite bool_decide_eq_true_2 by lia. reflexivity.
Qed.

(** *** Round updates *)

Lemma queue_UpdateRound (s : collector) (round : Z) :
  queue (UpdateRound s round) = ConsumeUntil (queue s) round.
Proof. unfold UpdateRound, stopSelection. simpl. now destruct (selector s). Qed.

(** After [UpdateRound R] the queue has no entry of a round below [R], and
    what was queued for [R] and later is still there. *)
Lemma UpdateRound_queue (s : collector) (R r : Z) :
  (r < R -> queue (UpdateRound s R) !! r = None) /\
  (R <= r -> queue (UpdateRound s R) !! r = queue s !! r).
Proof.
  rewrite queue_UpdateRound. split; intros Hr.
  - now apply lookup_ConsumeUntil_lt.
  - now apply lookup_ConsumeUntil_ge.
Qed.

(** *** What reaches the selector *)

(** [process] hands an event to the selector only when a selector is running
    and the header of the event is exactly the current round and step; the
    event is then appended to the selector's channel and the queue is left
    alone. *)
Theorem process_reaches_selector (s : collector) (ev : Event) :
  selector (process s ev) <> selector s ->
  exists sel,
    selector s = Some sel /\
    ExtractHeader ev = (CurrentRound s, CurrentStep s) /\
    selector (process s ev) =
      Some {| EventChan := EventChan sel ++ [ev]; StopChan := StopChan sel |} /\
    queue (process s ev) = queue s.
Proof.
  unfold process. destruct (ExtractHeader ev) as [round step].
  destruct (isObsolete s round step) eqn:Hobs; [congruence |].
  destruct (isEarly s round step) eqn:Hearly; [simpl; congruence |].
  simpl. intros _.
  unfold isObsolete in Hobs. unfold isEarly in Hearly.
  apply orb_false_iff in Hobs as [Hr1 Hs1].
  apply orb_false_iff in Hearly as [Hearly Hsel].
  apply orb_false_iff in Hearly as [Hr2 Hs2].
  apply bool_decide_eq_false in Hr1, Hs1, Hr2, Hs2.
  destruct (selector s) as [sel |]; [| discriminate].
  exists sel. repeat split. f_equal; lia.
Qed.


End Collector.

(** Scenario D of the specification, on this collector: it stands at round 4,
    step 3, with a selector running, and an event of round 5, step 1 comes
    in.  Events are represented by their header. *)
Definition at_round4_step3 : @collector (Z * Z) :=
  {| CurrentRound := 4; CurrentStep := 3; queue := ∅;
     selector := Some NewEventSelector; completed := false; stopped := [] |}.

(** The same collector as its own methods leave it: after [UpdateRound 4]
    the step is 1, and a selection has been started. *)
Definition after_UpdateRound4 : @collector (Z * Z) :=
  let s := UpdateRound at_round4_step3 4 in
  {| CurrentRound := CurrentRound s; CurrentStep := CurrentStep s;
     queue := queue s; selector := Some NewEventSelector;
     completed := completed s; stopped := stopped s |}.

(** C2 (evaluation at the failing input). At round 4, step 3 the selection
    collector classifies the event of round 5, step 1 as obsolete, and
    [process] returns the collector untouched: the event is not in the
    queue.  The same happens right after [UpdateRound 4] (step 1) to an
    event of round 5, step 0. *)
Theorem selection_drops_round5_step1 :
  (isObsolete at_round4_step3 5 1 = true /\
   process id at_round4_step3 (5, 1) = at_round4_step3 /\
   ~ queued (queue (process id at_round4_step3 (5, 1))) 5 (5, 1)) /\
  (CurrentStep after_UpdateRound4 = 1 /\
   isObsolete after_UpdateRound4 5 0 = true /\
   process id after_UpdateRound4 (5, 0) = after_UpdateRound4).
Proof.
  split.
  - split; [reflexivity |]. split; [reflexivity |].
    intros Hq. apply queued_lookup in Hq. destruct Hq as [steps Hsteps].
    discriminate Hsteps.
  - split; [reflexivity |]. split; reflexivity.
Qed.

Lemma process_reaches_selector_witness :
  exists sel,
    selector at_round4_step3 = Some sel /\
    id (4, 3) = (CurrentRound at_round4_step3, CurrentStep at_round4_step3) /\
    selector (process id at_round4_step3 (4, 3)) =
      Some {| EventChan := EventChan sel ++ [(4, 3)]; StopChan := StopChan sel |} /\
    queue (process id at_round4_step3 (4, 3)) = queue at_round4_step3.
Proof.
  apply (process_reaches_selector id at_round4_step3 (4, 3)). discriminate.
Defined.


End Selection.

(** ** [encoding/hex] of the Go library *)
Module Hex.
Local Open Scope Z_scope.

(** Two lower-case digits per byte, high nibble first. *)
Definition hextable : list ascii :=
  String.list_ascii_of_string "0123456789abcdef".

Definition hexdigit (n : Z) : ascii :=
  nth (Z.to_nat n) hextable "0"%char.

Fixpoint EncodeToString (src : list Z) : string :=
  match src with
  | [] => EmptyString
  | v :: rest =>
      String (hexdigit (Z.shiftr v 4))
        (String (hexdigit (Z.land v 15)) (EncodeToString rest))
  end.

Example encode_1f_a0 : EncodeToString [0x1f; 0xa0] = "1fa0"%string.
Proof. reflexivity. Qed.

End Hex.

(** ** Package reduction: the vote collector
    (src/pkg/core/consensus/reduction/collector.go) *)
Module Reduction.
Import EventQueue Hex.
Local Open Scope Z_scope.

(** [consensus.StepEventCollector]: the collected events by hash string. *)
Abbreviation StepEventCollector Event := (gmap string (list Event)).

Section Collector.
Context {Event Wire Error : Type}.
(** The handler capability of the reduction context. *)
Context (Unmarshal : Wire -> result Error Event).
Context (Verify : Event -> result Error ()).
Context (ExtractHeader : Event -> Z * Z).
(** [EmbedVoteHash ev w] writes the vote hash of [ev] to the buffer [w]: the
    bytes it appends, or its error. *)
Context (EmbedVoteHash : Event -> result Error (list Z)).
(** [ctx.committee.Quorum()]. *)
Context (Quorum : Z).

(** Modelled from the spec: the methods of consensus.StepEventCollector are
    not among the sources.  [Store] follows the accumulator of the
    specification, which "appends the event to collected[identifier]", and
    returns the number of events then held for the identifier; [Clear] is its
    "clear state for next step". *)
Definition Store (sec : StepEventCollector Event) (ev : Event) (hash : string)
  : Z * StepEventCollector Event :=
  let votes := default [] (sec !! hash) ++ [ev] in
  (Z.of_nat (length votes), <[hash := votes]> sec).

(** Modelled from the spec: [Clear] of consensus.StepEventCollector, which
    empties the collector. *)
Definition ClearCollector (sec : StepEventCollector Event) : StepEventCollector Event := ∅.

(** The collector with the state of its context.  [collectedVotesChan] lists
    the batches sent on the channel, oldest first; [reducer] tells whether
    [c.reducer] is non-nil, and [ended] counts the reducers [end()] was
    called on. *)
Record collector : Type := {
  Round : Z;
  Step : Z;
  collected : StepEventCollector Event;
  collectedVotesChan : list (list Event);
  queue : EventQueue Event;
  reducer : bool;
  ended : nat;
}.

(** The key under which [process] stores an event.  The source allocates
    [b := make([]byte, 0, 32)], hands [bytes.NewBuffer(b)] to the handler and
    then encodes [b]: the buffer grows through its own slice header, so [b]
    still has length 0 when it is encoded, whatever was written. *)
Definition vote_key (written : list Z) : string :=
  let b : list Z := [] in
  EncodeToString b.

Definition process (c : collector) (ev : Event) : collector :=
  match EmbedVoteHash ev with
  | Ok written =>
      let hash := vote_key written in
      let '(count, sec) := Store (collected c) ev hash in
      if bool_decide (count > Quorum) then
        let votes := default [] (sec !! hash) in
        {| Round := Round c; Step := Step c;
           collected := ClearCollector sec;
           collectedVotesChan := collectedVotesChan c ++ [votes];
           queue := queue c; reducer := reducer c; ended := ended c |}
      else
        {| Round := Round c; Step := Step c; collected := sec;
           collectedVotesChan := collectedVotesChan c;
           queue := queue c; reducer := reducer c; ended := ended c |}
  | Err _ => c
  end.

Definition isRelevant (c : collector) (round step : Z) : bool :=
  bool_decide (Round c = round) && bool_decide (Step c = step) && reducer c.

Definition isEarly (c : collector) (round step : Z) : bool :=
  bool_decide (Round c < round)
  || bool_decide (Round c = round) && bool_decide (Step c < step).

Definition Collect (c : collector) (buffer : Wire) : result Error collector :=
  ev ← Unmarshal buffer;
  _ ← Verify ev;
  let '(round, step) := ExtractHeader ev in
  if isRelevant c round step then mret (process c ev)
  else if isEarly c round step then
    mret {| Round := Round c; Step := Step c; collected := collected c;
            collectedVotesChan := collectedVotesChan c;
            queue := PutEvent (queue c) round step ev;
            reducer := reducer c; ended := ended c |}
  else mret c.

Definition flushQueue (c : collector) : collector :=
  let '(queuedEvents, q) := GetEvents (queue c) (Round c) (Step c) in
  foldl process
    {| Round := Round c; Step := Step c; collected := collected c;
       collectedVotesChan := collectedVotesChan c; queue := q;
       reducer := reducer c; ended := ended c |}
    queuedEvents.

Definition updateRound (c : collector) (round : Z) : collector :=
  {| Round := round; Step := 1;
     collected := ClearCollector (collected c);
     collectedVotesChan := collectedVotesChan c;
     queue := Clear (queue c) round;
     reducer := false;
     ended := if reducer c then S (ended c) else ended c |}.

(** startReduction installs a fresh reducer and flushes the queue (the
    reducer's own run is the subject of module Reducer). *)
Definition startReduction (c : collector) : collector :=
  flushQueue
    {| Round := Round c; Step := Step c; collected := collected c;
       collectedVotesChan := collectedVotesChan c; queue := queue c;
       reducer := true; ended := ended c |}.

(** *** When [process] emits a batch *)

(** The number of events held for the key once [ev] is stored. *)
Definition count_after (c : collector) (hash : string) : Z :=
  Z.of_nat (length (default [] (collected c !! hash))) + 1.

Lemma Store_count (sec : StepEventCollector Event) (ev : Event) (hash : string) :
  (Store sec ev hash).1 = Z.of_nat (length (default [] (sec !! hash))) + 1 /\
  (Store sec ev hash).2 !! hash = Some (default [] (sec !! hash) ++ [ev]).
Proof.
  unfold Store. simpl. rewrite length_app, lookup_insert_eq. simpl. split; [lia | reflexivity].
Qed.

(** [process] sends the stored batch exactly when the count is strictly
    above the quorum. *)
Lemma process_channel (c : collector) (ev : Event) (written : list Z) :
  EmbedVoteHash ev = Ok written ->
  collectedVotesChan (process c ev) =
    if bool_decide (count_after c (vote_key written) > Quorum)
    then collectedVotesChan c ++ [default [] (collected c !! vote_key written) ++ [ev]]
    else collectedVotesChan c.
Proof.
  intros Hw. unfold process, count_after. rewrite Hw.
  destruct (Store_count (collected c) ev (vote_key written)) as [Hcount Hvotes].
  destruct (Store (collected c) ev (vote_key written)) as [count sec].
  simpl in Hcount, Hvotes. subst count.
  case_bool_decide; simpl; [| reflexivity].
  now rewrite Hvotes.
Qed.

(** A batch sent by [process] holds more events than the quorum. *)
Lemma process_batch_size (c : collector) (ev : Event) (votes : list Event) :
  collectedVotesChan (process c ev) = collectedVotesChan c ++ [votes] ->
  Z.of_nat (length votes) > Quorum.
Proof.
  destruct (EmbedVoteHash ev) as [written | e] eqn:Hw.
  - rewrite (process_channel c ev written Hw).
    case_bool_decide as Hq; intros Hsent.
    + apply app_inv_head in Hsent. injection Hsent as <-.
      rewrite length_app. simpl. unfold count_after in Hq. lia.
    + apply (f_equal length) in Hsent. rewrite length_app in Hsent. simpl in Hsent. lia.
  - unfold process. rewrite Hw. intros Hsent.
    apply (f_equal length) in Hsent. rewrite length_app in Hsent. simpl in Hsent. lia.
Qed.

(** When the stored event brings the count to the quorum exactly, nothing is
    sent and the events stay collected. *)
Lemma process_at_quorum (c : collector) (ev : Event) (written : list Z) :
  EmbedVoteHash ev = Ok written ->
  count_after c (vote_key written) = Quorum ->
  collectedVotesChan (process c ev) = collectedVotesChan c /\
  collected (process c ev) !! vote_key written =
    Some (default [] (collected c !! vote_key written) ++ [ev]).
Proof.
  intros Hw Hq. split.
  - rewrite (process_channel c ev written Hw).
    rewrite bool_decide_eq_false_2 by lia. reflexivity.
  - unfold process. rewrite Hw.
    destruct (Store_count (collected c) ev (vote_key written)) as [Hcount Hvotes].
    destruct (Store (collected c) ev (vote_key written)) as [count sec].
    simpl in Hcount, Hvotes. unfold count_after in Hq.
    rewrite bool_decide_eq_false_2 by lia. exact Hvotes.
Qed.

(** *** Round updates *)

Lemma queue_updateRound (c : collector) (round r : Z) :
  queue (updateRound c round) !! r =
    if decide (r = round) then None else queue c !! r.
Proof.
  unfold updateRound, Clear. simpl.
  rewrite lookup_delete. repeat case_decide; congruence.
Qed.

(** *** What the collector keeps and what it lets through *)

(** No key holds more events than the quorum. *)
Definition within_quorum (c : collector) : Prop :=
  forall hash votes,
    collected c !! hash = Some votes -> Z.of_nat (length votes) <= Quorum.

Lemma process_within_quorum (c : collector) (ev : Event) :
  within_quorum c -> within_quorum (process c ev).
Proof.
  intros Hc. unfold process.
  destruct (EmbedVoteHash ev) as [written | e]; [| exact Hc].
  destruct (Store_count (collected c) ev (vote_key written)) as [Hcount Hvotes].
  destruct (Store (collected c) ev (vote_key written)) as [count sec] eqn:Hstore.
  simpl in Hcount, Hvotes.
  case_bool_decide as Hq; intros hash votes; simpl.
  - unfold ClearCollector. rewrite lookup_empty. discriminate.
  - unfold Store in Hstore. injection Hstore as Hc' Hsec. subst sec.
    destruct (decide (hash = vote_key written)) as [-> | Hne].
    + rewrite lookup_insert_eq. intros [= <-]. lia.
    + rewrite lookup_insert_ne by congruence. apply Hc.
Qed.

Lemma foldl_process_within_quorum (evs : list Event) (c : collector) :
  within_quorum c -> within_quorum (foldl process c evs).
Proof.
  revert c. induction evs as [| ev evs IH]; intros c Hc; simpl; [exact Hc |].
  apply IH, process_within_quorum, Hc.
Qed.

(** The collector never holds more than [Quorum()] events under one key:
    the bound is kept by every operation of the collector. *)
Theorem within_quorum_kept (c : collector) :
  within_quorum c ->
  (forall ev, within_quorum (process c ev)) /\
  (forall buffer c', Collect c buffer = Ok c' -> within_quorum c') /\
  within_quorum (flushQueue c) /\
  (forall round, within_quorum (updateRound c round)) /\
  within_quorum (startReduction c).
Proof.
  intros Hc. split; [| split; [| split; [| split]]].
  - intros ev. now apply process_within_quorum.
  - intros buffer c'. unfold Collect.
    destruct (Unmarshal buffer) as [ev | e]; [| discriminate]. simpl.
    destruct (Verify ev) as [[] | e]; [| discriminate]. simpl.
    destruct (ExtractHeader ev) as [round step].
    destruct (isRelevant c round step).
    + intros [= <-]. now apply process_within_quorum.
    + destruct (isEarly c round step); intros [= <-]; exact Hc.
  - unfold flushQueue.
    destruct (GetEvents (queue c) (Round c) (Step c)) as [queuedEvents q].
    apply foldl_process_within_quorum. exact Hc.
  - intros round hash votes. unfold updateRound, ClearCollector. simpl.
    rewrite lookup_empty. discriminate.
  - unfold startReduction, flushQueue. simpl.
    destruct (GetEvents (queue c) (Round c) (Step c)) as [queuedEvents q].
    apply foldl_process_within_quorum. exact Hc.
Qed.

(** An event for the current round and step is counted when a reducer is
    running and is otherwise let go: it is neither counted nor queued. *)
Theorem Collect_current_step (c : collector) (buffer : Wire) (ev : Event) :
  Unmarshal buffer = Ok ev ->
  Verify ev = Ok () ->
  ExtractHeader ev = (Round c, Step c) ->
  Collect c buffer = Ok (if reducer c then process c ev else c).
Proof.
  intros Hu Hv Hh. unfold Collect. rewrite Hu. simpl. rewrite Hv. simpl.
  rewrite Hh. unfold isRelevant, isEarly.
  rewrite !bool_decide_eq_true_2 by reflexivity.
  rewrite (bool_decide_eq_false_2 (Round c < Round c)) by lia.
  rewrite (bool_decide_eq_false_2 (Step c < Step c)) by lia.
  destruct (reducer c); reflexivity.
Qed.

(** One call of [process] sends at most one batch; when it does, the batch
    ends with the event just processed and the collector starts again from
    nothing. *)
Theorem process_sends_at_most_one (c : collector) (ev : Event) :
  (collectedVotesChan (process c ev) = collectedVotesChan c) \/
  (exists votes,
      collectedVotesChan (process c ev) = collectedVotesChan c ++ [votes] /\
      last votes = Some ev /\
      collected (process c ev) = ∅).
Proof.
  unfold process.
  destruct (EmbedVoteHash ev) as [written | e]; [| now left].
  destruct (Store_count (collected c) ev (vote_key written)) as [_ Hvotes].
  destruct (Store (collected c) ev (vote_key written)) as [count sec].
  simpl in Hvotes.
  case_bool_decide; simpl; [right | now left].
  eexists. split; [reflexivity |]. rewrite Hvotes. simpl.
  split; [apply last_snoc | reflexivity].
Qed.

(** After a round update nothing is counted until a reduction is started:
    whatever comes in leaves the collected events empty and the channel as
    it was. *)
Theorem updateRound_then_Collect (c : collector) (round : Z) (buffer : Wire)
    (c' : collector) :
  Collect (updateRound c round) buffer = Ok c' ->
  collected c' = ∅ /\
  collectedVotesChan c' = collectedVotesChan c /\
  Round c' = round /\ Step c' = 1 /\ reducer c' = false.
Proof.
  unfold Collect.
  destruct (Unmarshal buffer) as [ev | e]; [| discriminate]. simpl.
  destruct (Verify ev) as [[] | e]; [| discriminate]. simpl.
  destruct (ExtractHeader ev) as [r st].
  unfold isRelevant. cbn [reducer updateRound]. rewrite andb_false_r.
  destruct (isEarly _ r st); intros [= <-]; simpl; auto.
Qed.

End Collector.

(** A committee with quorum 2 and three members voting for the same block.
    An event is the number of its sender; every vote is for the hash
    0x11..11. *)
Definition vote_hash_11 : list Z := replicate 32 0x11.

Definition embed_11 (ev : Z) : result () (list Z) := Ok vote_hash_11.

Definition fresh : @collector Z :=
  {| Round := 1; Step := 1; collected := ∅; collectedVotesChan := [];
     queue := ∅; reducer := true; ended := 0 |}.

(** C1 (evaluation at the failing input). With quorum 2, after two distinct
    votes for the same hash the collector holds 2 events for the key, which
    reaches the quorum, and has sent nothing; the batch (of size 3) is sent
    with the third vote only. *)
Theorem process_silent_at_quorum :
  let c2 := process embed_11 2 (process embed_11 2 fresh 1) 2 in
  collectedVotesChan c2 = [] /\
  collected c2 !! vote_key vote_hash_11 = Some [1; 2] /\
  collectedVotesChan (process embed_11 2 c2 3) = [[1; 2; 3]].
Proof. cbv zeta. split; [reflexivity |]. split; reflexivity. Qed.

Lemma process_batch_size_witness :
  Z.of_nat (length [1; 2; 3]) > 2.
Proof.
  apply (process_batch_size embed_11 2
           (process embed_11 2 (process embed_11 2 fresh 1) 2) 3 [1; 2; 3]).
  reflexivity.
Defined.

(** Whatever hash the handler writes, the key is the empty string. *)
Example vote_key_empty : vote_key vote_hash_11 = EmptyString.
Proof. reflexivity. Qed.

(** Votes for different hashes therefore count towards the same batch: with
    quorum 1, a vote for 0x11..11 and a vote for 0x22..22 (an event being
    the pair of its sender and hash) leave together. *)
Example process_pools_hashes :
  let embed (ev : Z * list Z) : result () (list Z) := Ok ev.2 in
  let c0 : @collector (Z * list Z) :=
    {| Round := 1; Step := 1; collected := ∅; collectedVotesChan := [];
       queue := ∅; reducer := true; ended := 0 |} in
  collectedVotesChan
    (process embed 1 (process embed 1 c0 (1, vote_hash_11)) (2, replicate 32 0x22))
  = [[(1, vote_hash_11); (2, replicate 32 0x22)]].
Proof. reflexivity. Qed.

(** The collector stands at round 4, step 1 without a reducer; an event is
    its header. *)
Definition at_round4 : @collector (Z * Z) :=
  {| Round := 4; Step := 1; collected := ∅; collectedVotesChan := [];
     queue := ∅; reducer := false; ended := 0 |}.

Definition collect_header (c : @collector (Z * Z)) (ev : Z * Z) : result () (@collector (Z * Z)) :=
  Collect (λ w : Z * Z, Ok w) (λ _, Ok ()) id (λ _, Ok vote_hash_11) 34 c ev.

(** The sibling classification: at round 4, step 3 this collector takes the
    event of round 5, step 1 for an early one and queues it. *)
Lemma reduction_queues_round5_step1 :
  let c := {| Round := 4; Step := 3; collected := ∅; collectedVotesChan := [];
              queue := ∅; reducer := true; ended := 0 |} in
  isEarly c 5 1 = true /\
  exists c', collect_header c (5, 1) = Ok c' /\ queued (queue c') 5 (5, 1).
Proof.
  cbv zeta. split; [reflexivity |].
  eexists. split; [reflexivity |]. simpl. apply queued_PutEvent.
Qed.

(** C3 (evaluation at the failing input). The reduction collector at round 4,
    step 1 queues an event of round 4, step 3 and an event of round 5,
    step 1.  After [updateRound 5] the event of round 4 is still queued and
    the event of round 5 is gone. *)
Theorem updateRound_keeps_older_drops_new :
  exists c1 c2,
    collect_header at_round4 (4, 3) = Ok c1 /\
    collect_header c1 (5, 1) = Ok c2 /\
    queued (queue c2) 4 (4, 3) /\
    queued (queue c2) 5 (5, 1) /\
    queued (queue (updateRound c2 5)) 4 (4, 3) /\
    queue (updateRound c2 5) !! 5 = None.
Proof.
  do 2 eexists. split; [reflexivity |]. split; [reflexivity |].
  repeat split.
  - exists 3. vm_compute. set_solver.
  - exists 1. vm_compute. set_solver.
  - exists 3. vm_compute. set_solver.
Qed.

Lemma within_quorum_kept_witness :
  within_quorum 2 fresh /\
  within_quorum 2 (process embed_11 2 (process embed_11 2 fresh 1) 2).
Proof.
  assert (H0 : within_quorum 2 fresh).
  { intros hash votes Hl. simpl in Hl. rewrite lookup_empty in Hl. discriminate Hl. }
  split; [exact H0 |].
  pose proof (proj1 (within_quorum_kept (λ w : Z, Ok w) (λ _, Ok ()) (λ _, (1, 1))
                       embed_11 2 fresh H0) 1) as H1.
  exact (proj1 (within_quorum_kept (λ w : Z, Ok w) (λ _, Ok ()) (λ _, (1, 1))
                  embed_11 2 (process embed_11 2 fresh 1) H1) 2).
Defined.

Lemma Collect_current_step_witness :
  collect_header at_round4 (4, 1) = Ok at_round4.
Proof.
  exact (Collect_current_step (λ w : Z * Z, Ok w) (λ _, Ok ()) id
           (λ _, Ok vote_hash_11) 34 at_round4 (4, 1) (4, 1)
           eq_refl eq_refl eq_refl).
Defined.

Lemma updateRound_then_Collect_witness :
  exists c',
    collect_header (updateRound at_round4 5) (5, 2) = Ok c' /\
    collected c' = ∅ /\
    collectedVotesChan c' = collectedVotesChan at_round4 /\
    Round c' = 5 /\ Step c' = 1 /\ reducer c' = false.
Proof.
  eexists. split; [reflexivity |].
  apply (updateRound_then_Collect (Error := ()) (λ w : Z * Z, Ok w) (λ _, Ok ()) id
           (λ _, Ok vote_hash_11) 34 at_round4 5 (5, 2)).
  reflexivity.
Defined.

End Reduction.

(** ** Package reduction: the two-step reducer
    (src/pkg/core/consensus/reduction/reducer.go) *)
Module Reducer.
Local Open Scope Z_scope.

(** The wire topics the reducer frames its messages with, and the bus topics
    it publishes on. *)
Inductive Topic : Type := ReductionTopic | AgreementTopic.

Inductive BusTopic : Type := GossipTopic | BlockRegenerationTopic.

(** What [AddTopic] returns (a payload framed by its topic), or the raw bytes
    of a regeneration message. *)
Inductive Message : Type :=
| Frame (t : Topic) (payload : list Z)
| Raw (bytes : list Z).

Definition publication : Type := BusTopic * Message.

(** [events.Header]. *)
Record Header : Type := {
  PubKeyBLS : list Z;
  Round : Z;
  Step : Z;
  BlockHash : list Z;
}.

(** Where the goroutine running [begin] stands.  [events == nil] is [None]. *)
Inductive position (Event : Type) : Type :=
| Idle
| AwaitFirst
| FirstFetched (events : option (list Event))
| AwaitSecond (events : option (list Event)) (hash1 : list Z)
| SecondFetched (events : option (list Event)) (hash1 : list Z)
    (eventsSecondStep : option (list Event))
| Finished
| Panicked.
Arguments Idle {Event}.
Arguments AwaitFirst {Event}.
Arguments FirstFetched {Event} events.
Arguments AwaitSecond {Event} events hash1.
Arguments SecondFetched {Event} events hash1 eventsSecondStep.
Arguments Finished {Event}.
Arguments Panicked {Event}.

(** The reducer with the consensus state of its context: [published] is the
    log of [publisher.Publish] calls and [reported] the log of
    [ReportAbsentees] calls, oldest first. *)
Record reducer : Type := mkReducer {
  state_Round : Z;
  state_Step : Z;
  stale : bool;
  published : list publication;
  reported : list (Z * Z);
}.

Definition zero32 : list Z := replicate 32 0.

Section Run.
Context {Event Error AggregatedAgreement : Type}.
(** The handler, the committee and the keys of the context. *)
Context (ExtractIdentifier : Event -> result Error (list Z)).
Context (AmMember : Z -> Z -> bool).
Context (BLSPubKeyBytes EdPubKeyBytes : list Z).
(** Package events and the signature schemes: marshalling and signing of a
    vote, aggregation, signing and marshalling of an agreement. *)
Context (MarshalSignableVote : Header -> result Error (list Z)).
Context (SignReduction : list Z -> result Error (list Z)).
Context (Aggregate : Header -> list Event -> result Error AggregatedAgreement).
Context (SignAgreementEvent : AggregatedAgreement -> result Error AggregatedAgreement).
Context (MarshalAggregatedAgreement : AggregatedAgreement -> result Error (list Z)).
Context (ed25519_Sign : list Z -> list Z).
(** The topics [wire.AddTopic] cannot encode, with the error it returns. *)
Context (topic_error : Topic -> option Error).

(** Modelled from the spec: wire.AddTopic is not among the sources; "every
    P2P frame is [topic bytes][payload]". *)
Definition AddTopic (payload : list Z) (t : Topic) : result Error Message :=
  match topic_error t with
  | Some e => Err e
  | None => Ok (Frame t payload)
  end.

Definition Publish (r : reducer) (t : BusTopic) (m : Message) : reducer :=
  mkReducer (state_Round r) (state_Step r) (stale r)
    (published r ++ [(t, m)]) (reported r).

(** The step of the consensus state is a [uint8]. *)
Definition IncrementStep (r : reducer) : reducer :=
  mkReducer (state_Round r) ((state_Step r + 1) mod 256) (stale r)
    (published r) (reported r).

Definition ReportAbsentees (r : reducer) : reducer :=
  mkReducer (state_Round r) (state_Step r) (stale r) (published r)
    (reported r ++ [(state_Round r, state_Step r)]).

Definition set_stale (r : reducer) (b : bool) : reducer :=
  mkReducer (state_Round r) (state_Step r) b (published r) (reported r).

Definition inCommittee (r : reducer) : bool :=
  AmMember (state_Round r) (state_Step r).

(** The message [sendReduction] gossips, when every step of building it
    succeeds. *)
Definition reductionMessage (round step : Z) (hash : list Z) : result Error Message :=
  let h := {| PubKeyBLS := BLSPubKeyBytes; Round := round;
              Step := step; BlockHash := hash |} in
  vote ← MarshalSignableVote h;
  vote ← SignReduction vote;
  AddTopic vote ReductionTopic.

(** Errors are logged and the vote is not sent. *)
Definition sendReduction (r : reducer) (hash : list Z) : reducer :=
  match reductionMessage (state_Round r) (state_Step r) hash with
  | Ok message => Publish r GossipTopic message
  | Err _ => r
  end.

(** [signature || public key || event]. *)
Definition signEd25519 (eventBuf : list Z) : list Z :=
  ed25519_Sign eventBuf ++ EdPubKeyBytes ++ eventBuf.

(** The message [sendAgreement] gossips, when every step of building it
    succeeds. *)
Definition agreementMessage (round step : Z) (evs : list Event) (hash : list Z)
  : result Error Message :=
  let h := {| PubKeyBLS := BLSPubKeyBytes; Round := round;
              Step := step; BlockHash := hash |} in
  a ← Aggregate h evs;
  a ← SignAgreementEvent a;
  buffer ← MarshalAggregatedAgreement a;
  let signed := signEd25519 buffer in
  AddTopic signed AgreementTopic.

Definition sendAgreement (r : reducer) (evs : list Event) (hash : list Z) : reducer :=
  match agreementMessage (state_Round r) (state_Step r) evs hash with
  | Ok message => Publish r GossipTopic message
  | Err _ => r
  end.

(** The round on 8 little-endian bytes, then the step. *)
Definition publishRegeneration (r : reducer) : reducer :=
  let roundAndStep := Encoding.le_put 8 (state_Round r) ++ [state_Step r] in
  Publish r BlockRegenerationTopic (Raw roundAndStep).

Definition isReductionSuccessful (hash1 hash2 : list Z) : bool :=
  let bothNotNil :=
    negb (bool_decide (hash1 = zero32)) && negb (bool_decide (hash2 = zero32)) in
  let identicalResults := bool_decide (hash1 = hash2) in
  bothNotNil && identicalResults.

(** [extractHash]: the zero hash for the nil batch, else the identifier of
    the first event; [None] when the source panics (identifier error, or an
    empty batch that is not nil). *)
Definition extractHash (events : option (list Event)) : option (list Z) :=
  match events with
  | None => Some zero32
  | Some [] => None
  | Some (ev :: _) =>
      match ExtractIdentifier ev with
      | Ok hash => Some hash
      | Err _ => None
      end
  end.

(** Go's [append(events, eventsSecondStep...)]. *)
Definition appendEvents (events eventsSecondStep : option (list Event)) : list Event :=
  default [] events ++ default [] eventsSecondStep.

(** [startReduction]: marks the reducer non-stale, votes for [hash] and
    launches [begin]. *)
Definition startReduction (r : reducer) (hash : list Z) : reducer * position Event :=
  (sendReduction (set_stale r false) hash, AwaitFirst).

(** [begin] from the return of [firstStep.fetch] to the second fetch: the
    hash is extracted before the read lock is taken, the rest runs under
    it. *)
Definition firstStepDone (r : reducer) (events : option (list Event))
  : reducer * position Event :=
  match extractHash events with
  | None => (r, Panicked)
  | Some hash1 =>
      let r :=
        if negb (stale r) then
          (* if there was a timeout, we should report nodes that did not vote *)
          let r := if events is None then ReportAbsentees r else r in
          let r := IncrementStep r in
          if inCommittee r then sendReduction r hash1 else r
        else r in
      (r, AwaitSecond events hash1)
  end.

(** [begin] from the return of [secondStep.fetch] to its end, under the read
    lock. *)
Definition secondStepDone (r : reducer) (events : option (list Event))
    (hash1 : list Z) (eventsSecondStep : option (list Event))
  : reducer * position Event :=
  if negb (stale r) then
    let r := if eventsSecondStep is None then ReportAbsentees r else r in
    match extractHash eventsSecondStep with
    | None => (r, Panicked)
    | Some hash2 =>
        let allEvents := appendEvents events eventsSecondStep in
        let r :=
          if isReductionSuccessful hash1 hash2 && inCommittee r
          then sendAgreement r allEvents hash2 else r in
        let r := IncrementStep r in
        (publishRegeneration r, Finished)
    end
  else (r, Finished).

(** [end]: sets the stale flag under the write lock and signals both stop
    watches.  A stop signal only ever makes a pending [fetch] return nil,
    which [step] below allows at any time. *)
Definition end_ (r : reducer) : reducer := set_stale r true.

(** A whole run of [begin] that no [end] interrupts, given what the two
    fetches return. *)
Definition begin (r : reducer) (events eventsSecondStep : option (list Event))
  : reducer * position Event :=
  match firstStepDone r events with
  | (r, AwaitSecond events hash1) => secondStepDone r events hash1 eventsSecondStep
  | stopped => stopped
  end.

(** The interleavings of one in-flight [begin] with [end].  The mutex makes
    each of [firstStepDone], [secondStepDone] and [end] atomic with respect
    to the others.  A fetch may return any batch read from the channel, or
    nil on a timeout or a stop signal. *)
Inductive step : reducer * position Event -> reducer * position Event -> Prop :=
| step_fetch_first r events :
    step (r, AwaitFirst) (r, FirstFetched events)
| step_first_done r events :
    step (r, FirstFetched events) (firstStepDone r events)
| step_fetch_second r events hash1 eventsSecondStep :
    step (r, AwaitSecond events hash1) (r, SecondFetched events hash1 eventsSecondStep)
| step_second_done r events hash1 eventsSecondStep :
    step (r, SecondFetched events hash1 eventsSecondStep)
      (secondStepDone r events hash1 eventsSecondStep)
| step_end r pos :
    step (r, pos) (end_ r, pos).

(** *** What a run publishes *)

(** A gossiped frame carrying the Agreement topic. *)
Definition is_agreement (p : publication) : bool :=
  match p with
  | (GossipTopic, Frame AgreementTopic _) => true
  | _ => false
  end.

(** What was published between two states of the reducer. *)
Definition emitted (r r' : reducer) : list publication :=
  drop (length (published r)) (published r').

Lemma emitted_app (r r' : reducer) (ps : list publication) :
  published r' = published r ++ ps -> emitted r r' = ps.
Proof. intros Hp. unfold emitted. now rewrite Hp, drop_app_length. Qed.

Lemma AddTopic_frame (payload : list Z) (t : Topic) (m : Message) :
  AddTopic payload t = Ok m -> m = Frame t payload.
Proof. unfold AddTopic. destruct (topic_error t); congruence. Qed.

Lemma reductionMessage_frame (round step : Z) (hash : list Z) (m : Message) :
  reductionMessage round step hash = Ok m -> exists payload, m = Frame ReductionTopic payload.
Proof.
  unfold reductionMessage.
  destruct (MarshalSignableVote _) as [vote | e]; [| discriminate]. simpl.
  destruct (SignReduction vote) as [vote' | e]; [| discriminate]. simpl.
  intros Hm. apply AddTopic_frame in Hm. eauto.
Qed.

Lemma agreementMessage_frame (round step : Z) (evs : list Event) (hash : list Z) (m : Message) :
  agreementMessage round step evs hash = Ok m -> exists payload, m = Frame AgreementTopic payload.
Proof.
  unfold agreementMessage.
  destruct (Aggregate _ evs) as [a | e]; [| discriminate]. simpl.
  destruct (SignAgreementEvent a) as [a' | e]; [| discriminate]. simpl.
  destruct (MarshalAggregatedAgreement a') as [buffer | e]; [| discriminate]. simpl.
  intros Hm. apply AddTopic_frame in Hm. eauto.
Qed.

(** The votes a reducer gossips for a hash: one reduction frame, or nothing
    when building it fails. *)
Definition reductionVote (r : reducer) (hash : list Z) : list publication :=
  match reductionMessage (state_Round r) (state_Step r) hash with
  | Ok m => [(GossipTopic, m)]
  | Err _ => []
  end.

Definition agreementVote (r : reducer) (evs : list Event) (hash : list Z) : list publication :=
  match agreementMessage (state_Round r) (state_Step r) evs hash with
  | Ok m => [(GossipTopic, m)]
  | Err _ => []
  end.

Lemma sendReduction_published (r : reducer) (hash : list Z) :
  published (sendReduction r hash) = published r ++ reductionVote r hash
  /\ state_Round (sendReduction r hash) = state_Round r
  /\ state_Step (sendReduction r hash) = state_Step r
  /\ stale (sendReduction r hash) = stale r.
Proof.
  unfold sendReduction, reductionVote.
  destruct (reductionMessage _ _ hash); simpl; rewrite ?app_nil_r; auto.
Qed.

Lemma sendAgreement_published (r : reducer) (evs : list Event) (hash : list Z) :
  published (sendAgreement r evs hash) = published r ++ agreementVote r evs hash
  /\ state_Round (sendAgreement r evs hash) = state_Round r
  /\ state_Step (sendAgreement r evs hash) = state_Step r
  /\ stale (sendAgreement r evs hash) = stale r.
Proof.
  unfold sendAgreement, agreementVote.
  destruct (agreementMessage _ _ evs hash); simpl; rewrite ?app_nil_r; auto.
Qed.

Lemma reductionVote_no_agreement (r : reducer) (hash : list Z) :
  forallb (λ p, negb (is_agreement p)) (reductionVote r hash) = true.
Proof.
  unfold reductionVote.
  destruct (reductionMessage _ _ hash) as [m | e] eqn:Hm; [| reflexivity].
  apply reductionMessage_frame in Hm as [payload ->]. reflexivity.
Qed.

Lemma isReductionSuccessful_spec (hash1 hash2 : list Z) :
  isReductionSuccessful hash1 hash2 = true <-> hash1 = hash2 /\ hash1 <> zero32.
Proof.
  unfold isReductionSuccessful.
  rewrite !andb_true_iff, !negb_true_iff, !bool_decide_eq_false, bool_decide_eq_true.
  split.
  - intros [[H1 H2] Heq]. auto.
  - intros [Heq H1]. subst hash2. auto.
Qed.

(** The regeneration message of a reducer. *)
Definition regeneration (r : reducer) : publication :=
  (BlockRegenerationTopic, Raw (Encoding.le_put 8 (state_Round r) ++ [state_Step r])).

(** The reducer as [firstStepDone] leaves it when it is not stale. *)
Definition afterFirst (r : reducer) (events : option (list Event)) (hash1 : list Z) : reducer :=
  let r := if events is None then ReportAbsentees r else r in
  let r := IncrementStep r in
  if inCommittee r then sendReduction r hash1 else r.

Lemma afterFirst_state (r : reducer) (events : option (list Event)) (hash1 : list Z) :
  state_Round (afterFirst r events hash1) = state_Round r /\
  state_Step (afterFirst r events hash1) = (state_Step r + 1) mod 256 /\
  stale (afterFirst r events hash1) = stale r /\
  published (afterFirst r events hash1) =
    published r ++
    (if AmMember (state_Round r) ((state_Step r + 1) mod 256)
     then reductionVote (IncrementStep r) hash1 else []).
Proof.
  unfold afterFirst, inCommittee.
  destruct events as [evs |]; simpl;
    destruct (AmMember (state_Round r) ((state_Step r + 1) mod 256)); simpl;
    rewrite ?app_nil_r; auto;
    match goal with
    | |- context [sendReduction ?x hash1] =>
        destruct (sendReduction_published x hash1) as (Hp & Hr & Hs & Hst);
        rewrite Hp, Hr, Hs, Hst; simpl; auto
    end.
Qed.

Lemma firstStepDone_live (r : reducer) (events : option (list Event)) (hash1 : list Z) :
  stale r = false ->
  extractHash events = Some hash1 ->
  firstStepDone r events = (afterFirst r events hash1, AwaitSecond events hash1).
Proof. intros Hs Hh. unfold firstStepDone, afterFirst. now rewrite Hh, Hs. Qed.

(** What [secondStepDone] publishes when the reducer is not stale: the
    agreement when the reduction succeeded and the node sits in the
    committee, then the regeneration message. *)
Lemma secondStepDone_live (r : reducer) (events : option (list Event))
    (hash1 : list Z) (eventsSecondStep : option (list Event)) (hash2 : list Z) :
  stale r = false ->
  extractHash eventsSecondStep = Some hash2 ->
  exists r',
    secondStepDone r events hash1 eventsSecondStep = (r', Finished) /\
    published r' =
      published r ++
      (if isReductionSuccessful hash1 hash2 && inCommittee r
       then agreementVote r (appendEvents events eventsSecondStep) hash2 else [])
      ++ [regeneration (IncrementStep r)].
Proof.
  intros Hs Hh. unfold secondStepDone. rewrite Hs, Hh. simpl.
  eexists. split; [reflexivity |].
  unfold inCommittee, regeneration.
  destruct eventsSecondStep as [evs2 |]; simpl;
    destruct (isReductionSuccessful hash1 hash2 && AmMember (state_Round r) (state_Step r));
    simpl; try reflexivity;
    match goal with
    | |- context [sendAgreement ?x ?evs hash2] =>
        destruct (sendAgreement_published x evs hash2) as (Hp & Hr & Hst & _);
        rewrite Hp, Hr, Hst; simpl; rewrite <- app_assoc; reflexivity
    end.
Qed.

(** The publications of a whole run that is not stale and does not panic:
    the second-step vote, the agreement, the regeneration message. *)
Lemma begin_live (r : reducer) (events eventsSecondStep : option (list Event))
    (hash1 hash2 : list Z) :
  stale r = false ->
  extractHash events = Some hash1 ->
  extractHash eventsSecondStep = Some hash2 ->
  let r1 := afterFirst r events hash1 in
  let member := AmMember (state_Round r) ((state_Step r + 1) mod 256) in
  (begin r events eventsSecondStep).2 = Finished /\
  emitted r (begin r events eventsSecondStep).1 =
    (if member then reductionVote (IncrementStep r) hash1 else [])
    ++ (if isReductionSuccessful hash1 hash2 && member
        then agreementVote r1 (appendEvents events eventsSecondStep) hash2 else [])
    ++ [regeneration (IncrementStep r1)].
Proof.
  intros Hs Hh1 Hh2 r1 member. unfold begin.
  rewrite (firstStepDone_live r events hash1 Hs Hh1). fold r1.
  destruct (afterFirst_state r events hash1) as (Hround & Hstep & Hstale & Hpub).
  fold r1 member in Hround, Hstep, Hstale, Hpub.
  destruct (secondStepDone_live r1 events hash1 eventsSecondStep hash2)
    as (r' & Hdone & Hpub'); [congruence | exact Hh2 |].
  rewrite Hdone. simpl. split; [reflexivity |].
  apply emitted_app. rewrite Hpub', Hpub, <- app_assoc.
  unfold inCommittee. rewrite Hround, Hstep. reflexivity.
Qed.


(** *** Cancellation *)

Lemma firstStepDone_stale (r : reducer) (events : option (list Event)) :
  stale r = true ->
  (firstStepDone r events).1 = r.
Proof.
  intros Hs. unfold firstStepDone. destruct (extractHash events); [| reflexivity].
  now rewrite Hs.
Qed.

Lemma secondStepDone_stale (r : reducer) (events : option (list Event))
    (hash1 : list Z) (eventsSecondStep : option (list Event)) :
  stale r = true ->
  secondStepDone r events hash1 eventsSecondStep = (r, Finished).
Proof. intros Hs. unfold secondStepDone. now rewrite Hs. Qed.

(** A stale reducer stays stale and publishes nothing, whatever the run in
    flight does next. *)
Lemma step_stale (c c' : reducer * position Event) :
  step c c' ->
  stale c.1 = true ->
  stale c'.1 = true /\ published c'.1 = published c.1 /\
  state_Round c'.1 = state_Round c.1 /\ state_Step c'.1 = state_Step c.1.
Proof.
  intros Hstep. destruct Hstep; simpl; intros Hs.
  - auto.
  - rewrite firstStepDone_stale by exact Hs. auto.
  - auto.
  - rewrite secondStepDone_stale by exact Hs. auto.
  - auto.
Qed.

Lemma steps_stale (c c' : reducer * position Event) :
  rtc step c c' ->
  stale c.1 = true ->
  stale c'.1 = true /\ published c'.1 = published c.1 /\
  state_Round c'.1 = state_Round c.1 /\ state_Step c'.1 = state_Step c.1.
Proof.
  induction 1 as [c | c c1 c2 Hstep _ IH]; intros Hs; [auto |].
  destruct (step_stale c c1 Hstep Hs) as (Hs1 & Hp1 & Hr1 & Hst1).
  destruct (IH Hs1) as (Hs2 & Hp2 & Hr2 & Hst2).
  repeat split; congruence.
Qed.


(** *** The end of a run, and starting again *)

Definition is_regeneration (p : publication) : bool :=
  match p with
  | (BlockRegenerationTopic, _) => true
  | _ => false
  end.

Lemma reductionVote_gossip (r : reducer) (hash : list Z) :
  filter (λ p, is_regeneration p = true) (reductionVote r hash) = [].
Proof. unfold reductionVote. destruct (reductionMessage _ _ hash); reflexivity. Qed.

Lemma agreementVote_gossip (r : reducer) (evs : list Event) (hash : list Z) :
  filter (λ p, is_regeneration p = true) (agreementVote r evs hash) = [].
Proof. unfold agreementVote. destruct (agreementMessage _ _ evs hash); reflexivity. Qed.

Lemma afterFirst_reported (r : reducer) (events : option (list Event)) (hash1 : list Z) :
  reported (afterFirst r events hash1) =
    reported r ++ (if events is None then [(state_Round r, state_Step r)] else []).
Proof.
  unfold afterFirst, inCommittee.
  destruct events as [evs |]; simpl;
    destruct (AmMember (state_Round r) ((state_Step r + 1) mod 256)); simpl;
    unfold sendReduction; simpl;
    try destruct (reductionMessage _ _ hash1); simpl; now rewrite ?app_nil_r.
Qed.

Lemma secondStepDone_state (r : reducer) (events : option (list Event))
    (hash1 : list Z) (eventsSecondStep : option (list Event)) (hash2 : list Z) :
  stale r = false ->
  extractHash eventsSecondStep = Some hash2 ->
  let r' := (secondStepDone r events hash1 eventsSecondStep).1 in
  state_Round r' = state_Round r /\
  state_Step r' = (state_Step r + 1) mod 256 /\
  reported r' =
    reported r ++
    (if eventsSecondStep is None then [(state_Round r, state_Step r)] else []).
Proof.
  intros Hs Hh. unfold secondStepDone. rewrite Hs, Hh. simpl.
  unfold inCommittee, sendAgreement.
  destruct eventsSecondStep as [evs2 |]; simpl;
    destruct (isReductionSuccessful hash1 hash2 && AmMember (state_Round r) (state_Step r));
    simpl; try destruct (agreementMessage _ _ _ hash2); simpl;
    now rewrite ?app_nil_r.
Qed.

(** A completed run (not stale, no panic) publishes exactly one
    regeneration message, as its last publication; it carries the round of
    the run and the step after the two increments, which is where the
    consensus state then stands.  Absentees are reported once for each step
    that returned the nil batch. *)
Theorem begin_regeneration (r : reducer) (events eventsSecondStep : option (list Event))
    (hash1 hash2 : list Z) :
  stale r = false ->
  extractHash events = Some hash1 ->
  extractHash eventsSecondStep = Some hash2 ->
  let r' := (begin r events eventsSecondStep).1 in
  let step1 := (state_Step r + 1) mod 256 in
  let step2 := (state_Step r + 2) mod 256 in
  last (emitted r r') =
    Some (BlockRegenerationTopic, Raw (Encoding.le_put 8 (state_Round r) ++ [step2])) /\
  length (filter (λ p, is_regeneration p = true) (emitted r r')) = 1%nat /\
  state_Round r' = state_Round r /\
  state_Step r' = step2 /\
  reported r' =
    reported r
    ++ (if events is None then [(state_Round r, state_Step r)] else [])
    ++ (if eventsSecondStep is None then [(state_Round r, step1)] else []).
Proof.
  intros Hs Hh1 Hh2 r' step1 step2.
  destruct (begin_live r events eventsSecondStep hash1 hash2 Hs Hh1 Hh2) as [_ Hem].
  destruct (afterFirst_state r events hash1) as (Hround & Hstep & Hstale & _).
  pose proof (afterFirst_reported r events hash1) as Hrep.
  assert (Hstep2 : (step1 + 1) mod 256 = step2).
  { unfold step1, step2. rewrite Zplus_mod_idemp_l. f_equal. lia. }
  fold r' in Hem.
  assert (Hr' : r' = (secondStepDone (afterFirst r events hash1) events hash1
                        eventsSecondStep).1).
  { unfold r', begin. now rewrite (firstStepDone_live r events hash1 Hs Hh1). }
  destruct (secondStepDone_state (afterFirst r events hash1) events hash1
              eventsSecondStep hash2) as (Hround' & Hstep' & Hrep');
    [congruence | exact Hh2 |].
  rewrite <- Hr' in Hround', Hstep', Hrep'.
  rewrite Hround in Hround', Hrep'. rewrite Hstep in Hstep', Hrep'.
  fold step1 in Hstep', Hrep'. rewrite Hstep2 in Hstep'.
  split; [| split; [| split; [| split]]].
  - rewrite Hem, !app_assoc, last_snoc. unfold regeneration, IncrementStep. simpl.
    rewrite Hround, Hstep. fold step1. now rewrite Hstep2.
  - rewrite Hem, !filter_app.
    assert (Hfirst :
      filter (λ p, is_regeneration p = true)
        (if AmMember (state_Round r) ((state_Step r + 1) mod 256)
         then reductionVote (IncrementStep r) hash1 else []) = []).
    { destruct (AmMember _ _); [apply reductionVote_gossip | reflexivity]. }
    assert (Hsecond :
      filter (λ p, is_regeneration p = true)
        (if isReductionSuccessful hash1 hash2
            && AmMember (state_Round r) ((state_Step r + 1) mod 256)
         then agreementVote (afterFirst r events hash1)
                (appendEvents events eventsSecondStep) hash2 else []) = []).
    { destruct (_ && _); [apply agreementVote_gossip | reflexivity]. }
    rewrite Hfirst, Hsecond. reflexivity.
  - exact Hround'.
  - exact Hstep'.
  - rewrite Hrep', Hrep, <- app_assoc. reflexivity.
Qed.

Lemma end_stale (r : reducer) : stale r = true -> end_ r = r.
Proof. intros Hs. destruct r. simpl in Hs. subst. reflexivity. Qed.

(** Once stale, the reducer is frozen: whatever the run in flight does and
    however often [end] is called, the consensus step is not incremented, no
    absentee is reported and nothing is published. *)
Theorem stale_reducer_frozen (c c' : reducer * position Event) :
  stale c.1 = true ->
  rtc step c c' ->
  c'.1 = c.1.
Proof.
  intros Hs Hrun. induction Hrun as [c | c c1 c2 Hstep _ IH]; [reflexivity |].
  assert (H1 : c1.1 = c.1).
  { destruct Hstep; simpl in *.
    - reflexivity.
    - now apply firstStepDone_stale.
    - reflexivity.
    - now rewrite secondStepDone_stale.
    - now apply end_stale. }
  rewrite IH by congruence. exact H1.
Qed.

(** [startReduction] clears the stale flag and sends the first vote without
    asking the committee: a reducer that was ended runs again, and its run
    ends with the regeneration message. *)
Theorem startReduction_after_end (r : reducer) (hash : list Z)
    (events eventsSecondStep : option (list Event)) (hash1 hash2 : list Z) :
  extractHash events = Some hash1 ->
  extractHash eventsSecondStep = Some hash2 ->
  let r0 := (startReduction (end_ r) hash).1 in
  let run := begin r0 events eventsSecondStep in
  stale r0 = false /\
  emitted r r0 = reductionVote r hash /\
  run.2 = Finished /\
  exists earlier,
    emitted r0 run.1 =
      earlier ++
      [(BlockRegenerationTopic,
        Raw (Encoding.le_put 8 (state_Round r) ++ [((state_Step r + 1) mod 256 + 1) mod 256]))].
Proof.
  intros Hh1 Hh2 r0 run.
  assert (Hr0 : stale r0 = false /\ state_Round r0 = state_Round r /\
                state_Step r0 = state_Step r /\
                published r0 = published r ++ reductionVote r hash).
  { unfold r0, startReduction, end_. simpl.
    destruct (sendReduction_published (set_stale (set_stale r true) false) hash)
      as (Hp & Hr & Hst & Hs).
    rewrite Hp, Hr, Hst, Hs. unfold reductionVote. simpl. auto. }
  destruct Hr0 as (Hs0 & Hround0 & Hstep0 & Hpub0).
  destruct (begin_live r0 events eventsSecondStep hash1 hash2 Hs0 Hh1 Hh2)
    as [Hfin Hem].
  destruct (afterFirst_state r0 events hash1) as (Hround & Hstep & _ & _).
  split; [exact Hs0 |]. split; [now apply emitted_app |]. split; [exact Hfin |].
  fold run in Hem. rewrite Hem, app_assoc. eexists. f_equal.
  unfold regeneration, IncrementStep. simpl.
  now rewrite Hround, Hstep, Hround0, Hstep0.
Qed.

(** *** Starting the reducer again

    [startReduction] can be called again on a reducer whose earlier run of
    [begin] is still in flight: [end] makes a pending fetch return, but the
    run goes on to its second fetch, and the stop signal sent to a watch
    nobody is waiting on is dropped.  The runs then share the reducer and
    its stale flag.  A configuration is the reducer with the positions of
    the runs in flight, oldest first; [startReduction] is taken as one
    step. *)
Inductive restart_step
  : reducer * list (position Event) -> reducer * list (position Event) -> Prop :=
| restart_run r r' pos pos' older newer :
    step (r, pos) (r', pos') ->
    restart_step (r, older ++ pos :: newer) (r', older ++ pos' :: newer)
| restart_end r runs :
    restart_step (r, runs) (end_ r, runs)
| restart_start r hash runs :
    restart_step (r, runs)
      ((startReduction r hash).1, runs ++ [(startReduction r hash).2]).

End Run.

(** *** A concrete committee member

    A vote is the pair of its sender and of the hash it votes for; the node
    sits in every committee, marshalling and signing keep the bytes they are
    given, and an agreement is the header hash followed by the senders. *)
Definition demo_identifier (ev : Z * list Z) : result () (list Z) := Ok ev.2.

Definition demo_member (round step : Z) : bool := true.

Definition demo_marshal (h : Header) : result () (list Z) := Ok (BlockHash h).

Definition demo_aggregate (h : Header) (evs : list (Z * list Z)) : result () (list Z) :=
  Ok (BlockHash h ++ evs.*1).

Definition demo_topics (t : Topic) : option () := None.

Definition demo_begin :=
  begin demo_identifier demo_member [1] [2] demo_marshal Ok demo_aggregate Ok Ok
    (λ _, [9]) demo_topics.

Definition demo_step :=
  step demo_identifier demo_member [1] [2] demo_marshal Ok demo_aggregate Ok Ok
    (λ _, [9]) demo_topics.

Definition hash_11 : list Z := replicate 32 0x11.

Definition hash_22 : list Z := replicate 32 0x22.

(** Round 7, step 1, just started. *)
Definition started : reducer := mkReducer 7 1 false [] [].

Definition batch_11 : option (list (Z * list Z)) := Some [(1, hash_11); (2, hash_11)].

Definition batch_22 : option (list (Z * list Z)) := Some [(1, hash_22); (2, hash_22)].

(** Scenario A: both steps reach quorum on the same hash; the run ends with
    the second-step vote, the agreement and the regeneration message. *)
Example happy_run :
  (demo_begin started batch_11 batch_11).2 = Finished /\
  emitted started (demo_begin started batch_11 batch_11).1 =
    [(GossipTopic, Frame ReductionTopic hash_11);
     (GossipTopic, Frame AgreementTopic ([9] ++ [2] ++ hash_11 ++ [1; 2; 1; 2]));
     (BlockRegenerationTopic, Raw [7; 0; 0; 0; 0; 0; 0; 0; 3])].
Proof. split; reflexivity. Qed.

(** Scenario C: the steps disagree. *)
Example disagreeing_run :
  emitted started (demo_begin started batch_11 batch_22).1 =
    [(GossipTopic, Frame ReductionTopic hash_11);
     (BlockRegenerationTopic, Raw [7; 0; 0; 0; 0; 0; 0; 0; 3])].
Proof. reflexivity. Qed.

(** Scenario B: both steps time out. *)
Example timed_out_run :
  emitted started (demo_begin started None None).1 =
    [(GossipTopic, Frame ReductionTopic zero32);
     (BlockRegenerationTopic, Raw [7; 0; 0; 0; 0; 0; 0; 0; 3])] /\
  reported (demo_begin started None None).1 = [(7, 1); (7, 2)].
Proof. split; reflexivity. Qed.



Definition demo_restart_step :=
  restart_step demo_identifier demo_member [1] [2] demo_marshal Ok demo_aggregate Ok Ok
    (λ _, [9]) demo_topics.

(** The reducer of round 7, step 1, started again for the hash 0x11..11
    after [end]: the vote is out and the stale flag is cleared. *)
Definition restarted : reducer :=
  mkReducer 7 1 false [(GossipTopic, Frame ReductionTopic hash_11)] [].


Lemma begin_regeneration_witness :
  let r' := (demo_begin started None batch_11).1 in
  last (emitted started r') =
    Some (BlockRegenerationTopic, Raw (Encoding.le_put 8 7 ++ [3])) /\
  length (filter (λ p, is_regeneration p = true) (emitted started r')) = 1%nat /\
  state_Round r' = 7 /\
  state_Step r' = 3 /\
  reported r' = [(7, 1)].
Proof.
  exact (begin_regeneration demo_identifier demo_member [1] [2] demo_marshal Ok
           demo_aggregate Ok Ok (λ _, [9]) demo_topics
           started None batch_11 zero32 hash_11 eq_refl eq_refl eq_refl).
Defined.

(** A run that goes on after [end]: both fetches still return a batch. *)
Lemma run_after_end :
  rtc demo_step (end_ started, AwaitFirst) (end_ started, Finished).
Proof.
  eapply rtc_l; [exact (step_fetch_first _ _ _ _ _ _ _ _ _ _ _ (end_ started) batch_11) |].
  eapply rtc_l; [exact (step_first_done _ _ _ _ _ _ _ _ _ _ _ (end_ started) batch_11) |].
  eapply rtc_l;
    [exact (step_fetch_second _ _ _ _ _ _ _ _ _ _ _ (end_ started) batch_11 hash_11 batch_22) |].
  eapply rtc_l;
    [exact (step_second_done _ _ _ _ _ _ _ _ _ _ _ (end_ started) batch_11 hash_11 batch_22) |].
  apply rtc_refl.
Defined.

Lemma stale_reducer_frozen_witness :
  (end_ started, @Finished (Z * list Z)).1 = (end_ started, @AwaitFirst (Z * list Z)).1.
Proof.
  exact (stale_reducer_frozen demo_identifier demo_member [1] [2] demo_marshal Ok
           demo_aggregate Ok Ok (λ _, [9]) demo_topics
           (end_ started, AwaitFirst) (end_ started, Finished) eq_refl run_after_end).
Defined.

Lemma startReduction_after_end_witness :
  let r0 :=
    (startReduction (Event := Z * list Z) [1] demo_marshal Ok demo_topics
       (end_ started) hash_11).1 in
  let run := demo_begin r0 batch_11 batch_11 in
  stale r0 = false /\
  emitted started r0 = [(GossipTopic, Frame ReductionTopic hash_11)] /\
  run.2 = Finished /\
  exists earlier,
    emitted r0 run.1 =
      earlier ++ [(BlockRegenerationTopic, Raw (Encoding.le_put 8 7 ++ [3]))].
Proof.
  exact (startReduction_after_end demo_identifier demo_member [1] [2] demo_marshal Ok
           demo_aggregate Ok Ok (λ _, [9]) demo_topics
           started hash_11 batch_11 batch_11 hash_11 hash_11 eq_refl eq_refl).
Defined.

End Reducer.

(** ** Package chain: block acceptance (src/pkg/core/chain/chain.go) *)
Module Chain.
Local Open Scope Z_scope.

Inductive TxType : Type := StakeType | BidType | OtherType.

#[global] Instance TxType_eq_dec : EqDecision TxType.
Proof. solve_decision. Defined.

(** The topics [AcceptBlock] publishes or streams on. *)
Inductive BusTopic : Type :=
| NewProvisionerTopic
| BidListTopic
| AcceptedBlock
| Gossip.

Section Accept.
Context {Block Transaction Bid DB Error : Type}.
(** Package block and package transactions. *)
Context (Txs : Block -> list Transaction).
Context (Height : Block -> Z).
Context (Encode : Block -> result Error (list Z)).
Context (Type_ : Transaction -> TxType).
(** The buffer [addProvisioner] fills for a stake and a start height, or the
    error of one of its writes. *)
Context (provisionerBuffer : Transaction -> Z -> result Error (list Z)).
(** [calculateX(getTxTotalOutputAmount(tx), tx.M)] and the bytes of a bid. *)
Context (bidOf : Transaction -> Bid).
Context (bidBytes : Bid -> list Z).
(** [BidList.AddBid] of package user, which is not among the sources: the
    bid list once the bid has been handed to it. *)
Context (AddBid : list Bid -> Bid -> list Bid).
(** Package verifiers. *)
Context (CheckBlock : DB -> Block -> Block -> result Error ()).
(** The database transaction: what its operations do to the store. *)
Context (StoreBlock : DB -> Block -> result Error DB).
Context (DeleteCandidateBlocks : DB -> Z -> result Error (Z * DB)).
(** The inventory message of a block with its topic added, or the error of
    [wire.AddTopic]. *)
Context (invMessage : Block -> result Error (list Z)).

(** The chain: its store, its tip, the bid list and the log of what went out
    on the event bus, oldest first. *)
Record Chain : Type := mkChain {
  db : DB;
  prevBlock : Block;
  bidList : list Bid;
  eventBus : list (BusTopic * list Z);
}.

(** Modelled from the spec: package database is not among the sources; "the
    chain DB is accessed only through transactional closures db.Update(fn)":
    the closure's changes are kept when it returns nil and dropped when it
    returns an error, which [Update] hands back. *)
Definition Update {A : Type} (d : DB) (fn : DB -> result Error (A * DB))
  : DB * result Error A :=
  match fn d with
  | Ok (a, d') => (d', Ok a)
  | Err e => (d, Err e)
  end.

Definition Publish (c : Chain) (t : BusTopic) (m : list Z) : Chain :=
  mkChain (db c) (prevBlock c) (bidList c) (eventBus c ++ [(t, m)]).

Definition addProvisioner (c : Chain) (tx : Transaction) (startHeight : Z)
  : Chain * option Error :=
  match provisionerBuffer tx startHeight with
  | Err e => (c, Some e)
  | Ok buffer => (Publish c NewProvisionerTopic buffer, None)
  end.

Definition propagateBidList (c : Chain) : Chain :=
  Publish c BidListTopic (concat (bidBytes <$> bidList c)).

Definition addBidder (c : Chain) (tx : Transaction) : Chain * option Error :=
  let c := mkChain (db c) (prevBlock c) (AddBid (bidList c) (bidOf tx)) (eventBus c) in
  (propagateBidList c, None).

(** The body of the loop of [addConsensusNodes]: an error on a single
    transaction is logged and the transaction skipped. *)
Definition addConsensusNode (provisionerStartHeight : Z) (c : Chain)
    (tx : Transaction) : Chain :=
  match Type_ tx with
  | StakeType => (addProvisioner c tx provisionerStartHeight).1
  | BidType => (addBidder c tx).1
  | OtherType => c
  end.

Definition addConsensusNodes (c : Chain) (txs : list Transaction)
    (provisionerStartHeight : Z) : Chain :=
  foldl (addConsensusNode provisionerStartHeight) c txs.

(** Send Inventory message to all peers. *)
Definition advertiseBlock (c : Chain) (b : Block) : Chain * option Error :=
  match invMessage b with
  | Err e => (c, Some e)
  | Ok withTopic => (Publish c Gossip withTopic, None)
  end.

(** AcceptBlock will accept a block if we have not seen it before and all
    stateless and stateful checks are true.  Returns nil if checks passed
    and block was successfully saved. *)
Definition AcceptBlock (c : Chain) (blk : Block) : Chain * option Error :=
  (* 1. Check that stateless and stateful checks pass *)
  match CheckBlock (db c) (prevBlock c) blk with
  | Err e => (c, Some e)
  | Ok _ =>
  (* 2. Add provisioners and block generators *)
  let c := addConsensusNodes c (Txs blk) ((Height blk + 1) mod 2 ^ 64) in
  (* 3. Store block in database *)
  match Update (db c) (λ t, d ← StoreBlock t blk; mret ((), d)) with
  | (_, Err e) => (c, Some e)
  | (d, Ok _) =>
  let c := mkChain d blk (bidList c) (eventBus c) in
  (* 4. Notify other subsystems for the accepted block *)
  match Encode blk with
  | Err e => (c, Some e)
  | Ok buf =>
  let c := Publish c AcceptedBlock buf in
  (* 5. Gossip advertise block Hash *)
  match advertiseBlock c blk with
  | (c, Some e) => (c, Some e)
  | (c, None) =>
  (* 6. Cleanup obsolete candidate blocks *)
  match Update (db c) (λ t, DeleteCandidateBlocks t (Height blk)) with
  | (_, Err e) =>
      (* Not critical enough to abort the accepting procedure *)
      (c, None)
  | (d, Ok count) =>
      (mkChain d (prevBlock c) (bidList c) (eventBus c), None)
  end end end end end.

(** *** The tip and the store through [AcceptBlock] *)

Lemma addConsensusNode_frame (c : Chain) (tx : Transaction) (h : Z) :
  db (addConsensusNode h c tx) = db c /\
  prevBlock (addConsensusNode h c tx) = prevBlock c.
Proof.
  unfold addConsensusNode. destruct (Type_ tx); simpl; auto.
  unfold addProvisioner. destruct (provisionerBuffer tx h); simpl; auto.
Qed.

Lemma addConsensusNodes_frame (c : Chain) (txs : list Transaction) (h : Z) :
  db (addConsensusNodes c txs h) = db c /\
  prevBlock (addConsensusNodes c txs h) = prevBlock c.
Proof.
  unfold addConsensusNodes. revert c.
  induction txs as [| tx txs IH]; intros c; simpl; [auto |].
  destruct (IH (addConsensusNode h c tx)) as [Hdb Hprev].
  destruct (addConsensusNode_frame c tx h) as [Hdb' Hprev'].
  split; congruence.
Qed.

(** A block that fails verification is rejected before anything happens. *)
Lemma AcceptBlock_check_fails (c : Chain) (blk : Block) (e : Error) :
  CheckBlock (db c) (prevBlock c) blk = Err e ->
  AcceptBlock c blk = (c, Some e).
Proof. intros Hc. unfold AcceptBlock. now rewrite Hc. Qed.

(** C6. For a block that passes verification: when storing it fails with
    [e], [AcceptBlock] returns [e] and leaves the tip [prevBlock] (and the
    store) as they were; when the store succeeds, the block encodes and is
    advertised, and only the removal of the candidate blocks fails,
    [AcceptBlock] returns nil and the tip is the new block. *)
Theorem AcceptBlock_storage_errors (c : Chain) (blk : Block) :
  CheckBlock (db c) (prevBlock c) blk = Ok () ->
  match StoreBlock (db c) blk with
  | Err e =>
      (AcceptBlock c blk).2 = Some e /\
      prevBlock (AcceptBlock c blk).1 = prevBlock c /\
      db (AcceptBlock c blk).1 = db c
  | Ok d =>
      forall buf inv e,
        Encode blk = Ok buf ->
        invMessage blk = Ok inv ->
        DeleteCandidateBlocks d (Height blk) = Err e ->
        (AcceptBlock c blk).2 = None /\
        prevBlock (AcceptBlock c blk).1 = blk /\
        db (AcceptBlock c blk).1 = d
  end.
Proof.
  intros Hcheck. unfold AcceptBlock. rewrite Hcheck.
  destruct (addConsensusNodes_frame c (Txs blk) ((Height blk + 1) mod 2 ^ 64))
    as [Hdb Hprev].
  unfold Update. rewrite Hdb.
  destruct (StoreBlock (db c) blk) as [d | e]; simpl.
  - intros buf inv e Henc Hinv Hdel.
    rewrite Henc. unfold advertiseBlock. rewrite Hinv. simpl.
    rewrite Hdel. simpl. auto.
  - rewrite Hdb, Hprev. auto.
Qed.

(** *** Candidates and the winning hash *)

(** The candidate operations of the database transaction, the hash of a
    block header and the decoder of a block message. *)
Context (StoreCandidateBlock : DB -> Block -> result Error DB).
Context (FetchCandidateBlock : DB -> list Z -> result Error Block).
Context (HeaderHash : Block -> list Z).
Context (Decode : list Z -> result Error Block).

Definition onAcceptBlock (c : Chain) (m : list Z) : Chain * option Error :=
  match Decode m with
  | Err e => (c, Some e)
  | Ok blk => AcceptBlock c blk
  end.

Definition handleCandidateBlock (c : Chain) (candidate : Block) : Chain * option Error :=
  (* Ensure the candidate block satisfies all chain rules *)
  match CheckBlock (db c) (prevBlock c) candidate with
  | Err e => (c, Some e)
  | Ok _ =>
      (* Save it into persistent storage *)
      match Update (db c) (λ t, d ← StoreCandidateBlock t candidate; mret ((), d)) with
      | (_, Err e) => (c, Some e)
      | (d, Ok _) => (mkChain d (prevBlock c) (bidList c) (eventBus c), None)
      end
  end.

(** The closure handed to [db.View] only reads: the store is left as it
    is, and the error of the closure is the error of the call. *)
Definition handleWinningHash (c : Chain) (blockHash : list Z) : Chain * option Error :=
  (* Fetch the candidate block that the winningHash points at *)
  match FetchCandidateBlock (db c) blockHash with
  | Err e => (c, Some e)
  | Ok candidate =>
      (* Run the general procedure of block accepting *)
      AcceptBlock c candidate
  end.

(** *** Outcomes of [AcceptBlock] *)

Lemma addConsensusNode_bids (c : Chain) (tx : Transaction) (h : Z) :
  bidList (addConsensusNode h c tx) =
    if decide (Type_ tx = BidType) then AddBid (bidList c) (bidOf tx) else bidList c.
Proof.
  unfold addConsensusNode. destruct (Type_ tx); simpl; auto.
  unfold addProvisioner. destruct (provisionerBuffer tx h); simpl; auto.
Qed.

Lemma addConsensusNodes_bids (c : Chain) (txs : list Transaction) (h : Z) :
  bidList (addConsensusNodes c txs h) =
    foldl AddBid (bidList c) (bidOf <$> filter (λ tx, Type_ tx = BidType) txs).
Proof.
  unfold addConsensusNodes. revert c.
  induction txs as [| tx txs IH]; intros c; simpl; [reflexivity |].
  rewrite IH, addConsensusNode_bids, filter_cons.
  destruct (decide (Type_ tx = BidType)); reflexivity.
Qed.

(** [AcceptBlock] returns nil exactly when the block verifies, is stored,
    encodes and its inventory message can be built; the tip is then the new
    block, and the last two messages on the bus are the accepted block and
    then the gossiped inventory. *)
Theorem AcceptBlock_nil_iff (c : Chain) (blk : Block) :
  ((AcceptBlock c blk).2 = None <->
   exists d buf inv,
     CheckBlock (db c) (prevBlock c) blk = Ok () /\
     StoreBlock (db c) blk = Ok d /\
     Encode blk = Ok buf /\
     invMessage blk = Ok inv) /\
  (forall d buf inv,
     CheckBlock (db c) (prevBlock c) blk = Ok () ->
     StoreBlock (db c) blk = Ok d ->
     Encode blk = Ok buf ->
     invMessage blk = Ok inv ->
     prevBlock (AcceptBlock c blk).1 = blk /\
     eventBus (AcceptBlock c blk).1 =
       eventBus (addConsensusNodes c (Txs blk) ((Height blk + 1) mod 2 ^ 64))
       ++ [(AcceptedBlock, buf); (Gossip, inv)]).
Proof.
  destruct (addConsensusNodes_frame c (Txs blk) ((Height blk + 1) mod 2 ^ 64))
    as [Hdb Hprev].
  unfold AcceptBlock, Update, advertiseBlock. rewrite Hdb.
  destruct (CheckBlock (db c) (prevBlock c) blk) as [[] | e]; simpl.
  - destruct (StoreBlock (db c) blk) as [d | e]; simpl.
    + destruct (Encode blk) as [buf | e]; simpl.
      * destruct (invMessage blk) as [inv | e]; simpl.
        -- destruct (DeleteCandidateBlocks d (Height blk)) as [[count d'] | e]; simpl.
           ++ split; [split; [intros _; eauto 10 | reflexivity] |].
              intros d0 buf0 inv0 _ [= <-] [= <-] [= <-].
              rewrite <- app_assoc. auto.
           ++ split; [split; [intros _; eauto 10 | reflexivity] |].
              intros d0 buf0 inv0 _ [= <-] [= <-] [= <-].
              rewrite <- app_assoc. auto.
        -- split; [split; [discriminate | intros (? & ? & ? & _ & _ & _ & ?); discriminate] |].
           intros; discriminate.
      * split; [split; [discriminate | intros (? & ? & ? & _ & _ & ? & _); discriminate] |].
        intros; discriminate.
    + split; [split; [discriminate | intros (? & ? & ? & _ & ? & _); discriminate] |].
      intros; discriminate.
  - split; [split; [discriminate | intros (? & ? & ? & ? & _); discriminate] |].
    intros; discriminate.
Qed.

(** An error after the store does not undo it: when the block was stored
    and encoding or advertising then fails, [AcceptBlock] returns the error
    with the block in the store and the tip already moved to it. *)
Theorem AcceptBlock_no_rollback (c : Chain) (blk : Block) (d : DB) (e : Error) :
  CheckBlock (db c) (prevBlock c) blk = Ok () ->
  StoreBlock (db c) blk = Ok d ->
  Encode blk = Err e \/ (exists buf, Encode blk = Ok buf /\ invMessage blk = Err e) ->
  (AcceptBlock c blk).2 = Some e /\
  prevBlock (AcceptBlock c blk).1 = blk /\
  db (AcceptBlock c blk).1 = d.
Proof.
  intros Hcheck Hstore Hfail.
  destruct (addConsensusNodes_frame c (Txs blk) ((Height blk + 1) mod 2 ^ 64))
    as [Hdb Hprev].
  unfold AcceptBlock, Update, advertiseBlock. rewrite Hcheck, Hdb, Hstore. simpl.
  destruct Hfail as [Henc | (buf & Henc & Hinv)]; rewrite Henc; simpl.
  - auto.
  - rewrite Hinv. simpl. auto.
Qed.

(** The bids of a verified block are handed to [AddBid], in block order and
    once each, before the block is stored, so the bid list they leave stays
    whatever happens afterwards; a block that fails verification leaves the
    bid list as it was. *)
Theorem AcceptBlock_bids (c : Chain) (blk : Block) :
  bidList (AcceptBlock c blk).1 =
    match CheckBlock (db c) (prevBlock c) blk with
    | Ok _ =>
        foldl AddBid (bidList c) (bidOf <$> filter (λ tx, Type_ tx = BidType) (Txs blk))
    | Err _ => bidList c
    end.
Proof.
  pose proof (addConsensusNodes_bids c (Txs blk) ((Height blk + 1) mod 2 ^ 64)) as Hbids.
  unfold AcceptBlock, Update, advertiseBlock.
  destruct (CheckBlock (db c) (prevBlock c) blk) as [[] | e]; simpl; [| reflexivity].
  destruct (StoreBlock _ blk) as [d | e]; simpl; [| exact Hbids].
  destruct (Encode blk) as [buf | e]; simpl; [| exact Hbids].
  destruct (invMessage blk) as [inv | e]; simpl; [| exact Hbids].
  destruct (DeleteCandidateBlocks d (Height blk)) as [[count d'] | e]; simpl; exact Hbids.
Qed.

(** A candidate that was stored is the block accepted when its hash wins,
    provided the database returns under a hash the candidate stored with
    it; a winning hash without candidate changes nothing. *)
Theorem handleWinningHash_after_candidate (c c1 : Chain) (candidate : Block) :
  (forall d d' b, StoreCandidateBlock d b = Ok d' ->
                  FetchCandidateBlock d' (HeaderHash b) = Ok b) ->
  handleCandidateBlock c candidate = (c1, None) ->
  handleWinningHash c1 (HeaderHash candidate) = AcceptBlock c1 candidate /\
  prevBlock c1 = prevBlock c /\ bidList c1 = bidList c /\ eventBus c1 = eventBus c.
Proof.
  intros Hlaw. unfold handleCandidateBlock, Update.
  destruct (CheckBlock (db c) (prevBlock c) candidate) as [[] | e]; [| discriminate].
  destruct (StoreCandidateBlock (db c) candidate) as [d |] eqn:Hstore;
    simpl; [| discriminate].
  intros [= <-]. unfold handleWinningHash. simpl.
  rewrite (Hlaw _ _ _ Hstore). auto.
Qed.

End Accept.

(** *** A store that fails on demand

    A block is its height, the store is the list of stored heights;
    storing a height twice fails, and removing candidates fails below
    height 10. *)
Definition demo_StoreBlock (d : list Z) (blk : Z) : result string (list Z) :=
  if bool_decide (blk ∈ d) then Err "block exists"%string else Ok (blk :: d).

Definition demo_Delete (d : list Z) (height : Z) : result string (Z * list Z) :=
  if bool_decide (height < 10) then Err "no candidates"%string else Ok (0, d).

Definition demo_AcceptBlock : @Chain Z () (list Z) -> Z -> @Chain Z () (list Z) * option string :=
  AcceptBlock (Transaction := ()) (Bid := ()) (λ _, []) id (λ blk, Ok [blk])
    (λ _, OtherType) (λ _ _, Ok []) (λ _, ()) (λ _, []) (λ l b, l ++ [b])
    (λ _ _ _, Ok ()) demo_StoreBlock demo_Delete (λ blk, Ok [blk]).

Definition tip3 : @Chain Z () (list Z) := mkChain [3; 2; 1] 3 [] [].

Lemma AcceptBlock_storage_errors_witness :
  ((demo_AcceptBlock tip3 3).2 = Some "block exists"%string /\
   prevBlock (demo_AcceptBlock tip3 3).1 = 3 /\
   db (demo_AcceptBlock tip3 3).1 = [3; 2; 1]) /\
  ((demo_AcceptBlock tip3 4).2 = None /\
   prevBlock (demo_AcceptBlock tip3 4).1 = 4 /\
   db (demo_AcceptBlock tip3 4).1 = [4; 3; 2; 1]).
Proof.
  split.
  - exact (AcceptBlock_storage_errors (Transaction := ()) (Bid := ())
             (λ _, []) id (λ blk, Ok [blk])
             (λ _, OtherType) (λ _ _, Ok []) (λ _, ()) (λ _, []) (λ l b, l ++ [b])
             (λ _ _ _, Ok ()) demo_StoreBlock demo_Delete (λ blk, Ok [blk])
             tip3 3 eq_refl).
  - exact (AcceptBlock_storage_errors (Transaction := ()) (Bid := ())
             (λ _, []) id (λ blk, Ok [blk])
             (λ _, OtherType) (λ _ _, Ok []) (λ _, ()) (λ _, []) (λ l b, l ++ [b])
             (λ _ _ _, Ok ()) demo_StoreBlock demo_Delete (λ blk, Ok [blk])
             tip3 4 eq_refl [4] [4] "no candidates"%string eq_refl eq_refl eq_refl).
Defined.

Lemma AcceptBlock_nil_iff_witness :
  prevBlock (demo_AcceptBlock tip3 12).1 = 12 /\
  eventBus (demo_AcceptBlock tip3 12).1 = [(AcceptedBlock, [12]); (Gossip, [12])].
Proof.
  exact (proj2 (AcceptBlock_nil_iff (Transaction := ()) (Bid := ())
                  (λ _, []) id (λ blk, Ok [blk])
                  (λ _, OtherType) (λ _ _, Ok []) (λ _, ()) (λ _, []) (λ l b, l ++ [b])
                  (λ _ _ _, Ok ()) demo_StoreBlock demo_Delete (λ blk, Ok [blk])
                  tip3 12)
               [12; 3; 2; 1] [12] [12] eq_refl eq_refl eq_refl eq_refl).
Defined.

(** *** A block that cannot be encoded

    Blocks from height 100 on do not encode. *)
Definition demo_Encode (blk : Z) : result string (list Z) :=
  if bool_decide (blk < 100) then Ok [blk] else Err "too large"%string.

Lemma AcceptBlock_no_rollback_witness :
  let accept :=
    AcceptBlock (Transaction := ()) (Bid := ()) (λ _, []) id demo_Encode
      (λ _, OtherType) (λ _ _, Ok []) (λ _, ()) (λ _, []) (λ l b, l ++ [b])
      (λ _ _ _, Ok ()) demo_StoreBlock demo_Delete (λ blk, Ok [blk]) in
  (accept tip3 200).2 = Some "too large"%string /\
  prevBlock (accept tip3 200).1 = 200 /\
  db (accept tip3 200).1 = [200; 3; 2; 1].
Proof.
  exact (AcceptBlock_no_rollback (Transaction := ()) (Bid := ())
           (λ _, []) id demo_Encode
           (λ _, OtherType) (λ _ _, Ok []) (λ _, ()) (λ _, []) (λ l b, l ++ [b])
           (λ _ _ _, Ok ()) demo_StoreBlock demo_Delete (λ blk, Ok [blk])
           tip3 200 [200; 3; 2; 1] "too large"%string eq_refl eq_refl
           (or_introl eq_refl)).
Defined.

(** *** Candidates kept by height

    The candidates share the list of the store; the hash of a block is the
    one-element list of its height. *)
Definition demo_Fetch (d : list Z) (h : list Z) : result string Z :=
  match h with
  | [x] => if bool_decide (x ∈ d) then Ok x else Err "no candidate"%string
  | _ => Err "no candidate"%string
  end.

Lemma demo_Fetch_stored (d d' : list Z) (b : Z) :
  (Ok (b :: d) : result string (list Z)) = Ok d' -> demo_Fetch d' [b] = Ok b.
Proof.
  intros [= <-]. unfold demo_Fetch. rewrite bool_decide_eq_true_2; [done |].
  apply list_elem_of_here.
Qed.

Lemma handleWinningHash_after_candidate_witness :
  let candidate :=
    handleCandidateBlock (Bid := ()) (Error := string)
      (λ _ _ _, Ok ()) (λ d b, Ok (b :: d)) in
  let winning :=
    handleWinningHash (Transaction := ()) (Bid := ()) (λ _, []) id (λ blk, Ok [blk])
      (λ _, OtherType) (λ _ _, Ok []) (λ _, ()) (λ _, []) (λ l b, l ++ [b])
      (λ _ _ _, Ok ()) demo_StoreBlock demo_Delete (λ blk, Ok [blk]) demo_Fetch in
  let c1 := mkChain [5; 3; 2; 1] 3 [] [] in
  candidate tip3 5 = (c1, None) /\
  (winning c1 [5] = demo_AcceptBlock c1 5 /\
   prevBlock c1 = 3 /\ bidList c1 = [] /\ eventBus c1 = []).
Proof.
  split; [reflexivity |].
  exact (handleWinningHash_after_candidate (Transaction := ()) (Bid := ())
           (λ _, []) id (λ blk, Ok [blk])
           (λ _, OtherType) (λ _ _, Ok []) (λ _, ()) (λ _, []) (λ l b, l ++ [b])
           (λ _ _ _, Ok ()) demo_StoreBlock demo_Delete (λ blk, Ok [blk])
           (λ d b, Ok (b :: d)) demo_Fetch (λ b, [b])
           tip3 (mkChain [5; 3; 2; 1] 3 [] []) 5 demo_Fetch_stored eq_refl).
Defined.

End Chain.

(** ** Package candidate: validation of candidate blocks
    (src/pkg/core/candidate/validator.go) *)
Module Candidate.
Local Open Scope Z_scope.

(** A Go [error]: one made by [errors.New] here, or one handed up from a
    callee. *)
Inductive error (E : Type) : Type :=
| New (text : string)
| From (e : E).
Arguments New {E} text.
Arguments From {E} e.

(** Go's [copy] into a fresh slice of [n] zero bytes. *)
Definition copy_into (n : nat) (src : list Z) : list Z :=
  take n src ++ replicate (n - length src) 0.

Section Validate.
Context {Rest Certificate E : Type}.

(** [block.Block], as far as validation looks at it: the stored hash and
    transaction root of the header, and everything else. *)
Record Block : Type := mkBlock {
  Hash : list Z;
  TxRoot : list Z;
  rest : Rest;
}.

(** Package block of the wallet: the hash of the header fields and the
    Merkle root of the transactions, as [SetHash] and [SetRoot] compute
    them. *)
Context (computeHash : Block -> result E (list Z)).
Context (computeRoot : Block -> result E (list Z)).
(** [Decode] of a candidate message. *)
Context (Decode : list Z -> result E (Block * Certificate)).

Definition SetHash (blk : Block) : result E Block :=
  h ← computeHash blk; mret (mkBlock h (TxRoot blk) (rest blk)).

Definition SetRoot (blk : Block) : result E Block :=
  r ← computeRoot blk; mret (mkBlock (Hash blk) r (rest blk)).

(** Both checks act on the block in place; they return it with the error. *)
Definition checkHash (blk : Block) : Block * option (error E) :=
  let hash := copy_into 32 (Hash blk) in
  match SetHash blk with
  | Err e => (blk, Some (From e))
  | Ok blk =>
      if negb (bool_decide (hash = Hash blk))
      then (blk, Some (New "invalid block hash"))
      else (blk, None)
  end.

Definition checkRoot (blk : Block) : Block * option (error E) :=
  let root := copy_into 32 (TxRoot blk) in
  match SetRoot blk with
  | Err e => (blk, Some (From e))
  | Ok blk =>
      if negb (bool_decide (root = TxRoot blk))
      then (blk, Some (New "invalid merkle root hash"))
      else (blk, None)
  end.

(** Make sure the hash and root are correct, to avoid malicious nodes from
    overwriting the candidate block for a specific hash. *)
Definition Validate (b : list Z) : option (error E) :=
  match Decode b with
  | Err e => Some (From e)
  | Ok (blk, _) =>
      match checkHash blk with
      | (_, Some e) => Some e
      | (blk, None) => (checkRoot blk).2
      end
  end.

Lemma copy_into_length (n : nat) (src : list Z) :
  length src = n -> copy_into n src = src.
Proof.
  intros Hn. unfold copy_into. rewrite take_ge by lia.
  replace (n - length src)%nat with 0%nat by lia. apply app_nil_r.
Qed.

(** The hash check on a block whose stored hash has 32 bytes. *)
Lemma checkHash_spec (blk : Block) :
  length (Hash blk) = 32%nat ->
  checkHash blk =
    match computeHash blk with
    | Err e => (blk, Some (From e))
    | Ok h =>
        if bool_decide (h = Hash blk) then (blk, None)
        else (mkBlock h (TxRoot blk) (rest blk), Some (New "invalid block hash"))
    end.
Proof.
  intros Hlen. unfold checkHash, SetHash. rewrite copy_into_length by exact Hlen.
  destruct (computeHash blk) as [h | e]; simpl; [| reflexivity].
  case_bool_decide as Hstored; case_bool_decide as Hh; simpl; try congruence.
  subst h. now destruct blk.
Qed.

Lemma checkRoot_spec (blk : Block) :
  length (TxRoot blk) = 32%nat ->
  (checkRoot blk).2 =
    match computeRoot blk with
    | Err e => Some (From e)
    | Ok r =>
        if bool_decide (r = TxRoot blk) then None
        else Some (New "invalid merkle root hash")
    end.
Proof.
  intros Hlen. unfold checkRoot, SetRoot. rewrite copy_into_length by exact Hlen.
  destruct (computeRoot blk) as [r | e]; simpl; [| reflexivity].
  case_bool_decide as Hstored; case_bool_decide as Hr; simpl; congruence.
Qed.

(** C8. For a buffer that decodes to a block (whose stored hash and root are
    the 32-byte fields of the wire format): [Validate] returns nil exactly
    when the recomputed hash equals the stored hash byte for byte and the
    recomputed Merkle root equals the stored root; a recomputed hash that
    differs from the stored one gives the error "invalid block hash"; a
    matching hash with a recomputed root that differs gives "invalid merkle
    root hash". *)
Theorem Validate_spec (b : list Z) (blk : Block) (cert : Certificate) :
  Decode b = Ok (blk, cert) ->
  length (Hash blk) = 32%nat ->
  length (TxRoot blk) = 32%nat ->
  (Validate b = None <->
   computeHash blk = Ok (Hash blk) /\ computeRoot blk = Ok (TxRoot blk)) /\
  (forall h, computeHash blk = Ok h -> h <> Hash blk ->
             Validate b = Some (New "invalid block hash")) /\
  (forall r, computeHash blk = Ok (Hash blk) -> computeRoot blk = Ok r ->
             r <> TxRoot blk ->
             Validate b = Some (New "invalid merkle root hash")).
Proof.
  intros Hdec Hhash Hroot. unfold Validate. rewrite Hdec.
  rewrite (checkHash_spec blk Hhash).
  destruct (computeHash blk) as [h | e];
    [case_bool_decide as Hh;
       [subst h; rewrite (checkRoot_spec blk Hroot);
        destruct (computeRoot blk) as [r | e]; [case_bool_decide as Hr |] |] |];
    (split; [split; [intros Hnil | intros [Hh' Hr']] | split; intros x; intros]);
    try congruence; try (split; congruence).
Qed.

End Validate.

(** *** Scenario F on a toy block format

    The wire form is the stored hash, the stored root, then the transaction
    bytes.  The root is 32 copies of the sum of the transaction bytes, the
    hash is the root reversed. *)
Definition demo_root (blk : @Block (list Z)) : result () (list Z) :=
  Ok (replicate 32 (foldr Z.add 0 (rest blk) mod 256)).

Definition demo_hash (blk : @Block (list Z)) : result () (list Z) :=
  Ok (reverse (TxRoot blk)).

Definition demo_Decode (b : list Z) : result () (@Block (list Z) * ()) :=
  if decide (64 <= length b)%nat
  then Ok (mkBlock (take 32 b) (take 32 (drop 32 b)) (drop 64 b), ())
  else Err ().

Definition demo_Validate : list Z -> option (error ()) :=
  Validate demo_hash demo_root demo_Decode.

Definition valid_candidate : list Z := replicate 32 6 ++ replicate 32 6 ++ [1; 2; 3].

Definition mutated_tx : list Z := replicate 32 6 ++ replicate 32 6 ++ [1; 2; 4].

Definition mutated_hash : list Z := (7 :: replicate 31 6) ++ replicate 32 6 ++ [1; 2; 3].

Lemma Validate_spec_witness :
  demo_Validate valid_candidate = None /\
  demo_Validate mutated_tx = Some (New "invalid merkle root hash") /\
  demo_Validate mutated_hash = Some (New "invalid block hash").
Proof.
  split; [| split].
  - apply (Validate_spec demo_hash demo_root demo_Decode valid_candidate
             (mkBlock (replicate 32 6) (replicate 32 6) [1; 2; 3]) ()
             eq_refl eq_refl eq_refl).
    split; reflexivity.
  - apply (Validate_spec demo_hash demo_root demo_Decode mutated_tx
             (mkBlock (replicate 32 6) (replicate 32 6) [1; 2; 4]) ()
             eq_refl eq_refl eq_refl) with (r := replicate 32 7).
    + reflexivity.
    + reflexivity.
    + discriminate.
  - apply (Validate_spec demo_hash demo_root demo_Decode mutated_hash
             (mkBlock (7 :: replicate 31 6) (replicate 32 6) [1; 2; 3]) ()
             eq_refl eq_refl eq_refl) with (h := replicate 32 6).
    + reflexivity.
    + discriminate.
Defined.

End Candidate.

(** ** Package syncmgr: headers-first synchronisation
    (src/pkg/p2p/peer/syncmgr/syncmgr.go) *)
Module Syncmgr.
Import Hex.
Local Open Scope Z_scope.

(** This is the maximum amount of blocks that we will ask for from a single
    peer. *)
Definition maxBlockRequestPerPeer : nat := 16.

Section Headers.
Context {Header Peer Error : Type}.
Context (Hash : Header -> list Z).
(** The blockchain: validation of a headers message and its insertion into
    the database ([None] is a nil error). *)
Context (ValidateHeaders : list Header -> option Error).
Context (AddHeaders : list Header -> option Error).
(** The peer manager. *)
Context (RequestHeaders : list Z -> result Error Peer).
Context (RequestBlocks : list (list Z) -> result Error Peer).

(** The sync manager; a hash is a byte slice, the nil slice being the empty
    list.  [disconnected] lists the peers handed to [pmgr.Disconnect]. *)
Record Syncmgr : Type := mkSyncmgr {
  Mode : Z;
  headers : list (list Z);
  inflightBlockReqs : gmap string Peer;
  disconnected : list Peer;
}.

(** RequestMoreBlocks requests blocks from another peer and keeps an admin
    of the requested blocks and peers. *)
Definition RequestMoreBlocks (s : Syncmgr) : Syncmgr * option Error :=
  let reqAmount :=
    if decide (maxBlockRequestPerPeer <= length (headers s))%nat
    then maxBlockRequestPerPeer else length (headers s) in
  let blockReq := take reqAmount (headers s) in
  match RequestBlocks blockReq with
  | Err e => (s, Some e)
  | Ok peer =>
      let inflight :=
        foldl (λ m hash, <[EncodeToString hash := peer]> m)
          (inflightBlockReqs s) (headers s) in
      (mkSyncmgr (Mode s) (drop reqAmount (headers s)) inflight (disconnected s),
       None)
  end.

(** Go's [make([][]byte, n)]: [n] nil slices. *)
Definition make_hashes (n : nat) : list (list Z) := replicate n [].

(** HeadersFirstMode receives 'headers' msgs from another peer and adds
    them to the chain. *)
Definition HeadersFirstMode (s : Syncmgr) (p : Peer) (msg : list Header)
  : Syncmgr * option Error :=
  (* Validate Headers *)
  match ValidateHeaders msg with
  | Some e =>
      (* Re-request headers from a different peer *)
      (mkSyncmgr (Mode s) (headers s) (inflightBlockReqs s) (disconnected s ++ [p]),
       Some e)
  | None =>
  (* Add Headers into db *)
  match AddHeaders msg with
  | Some e => (s, Some e)
  | None =>
  (* Add header hashes into slice *)
  let hashes := foldl (λ hashes header, hashes ++ [Hash header])
                  (make_hashes (length msg)) msg in
  let s := mkSyncmgr (Mode s) (headers s ++ hashes) (inflightBlockReqs s)
             (disconnected s) in
  if decide (length msg = 2000%nat) then
    (* switch to BlocksOnly *)
    RequestMoreBlocks
      (mkSyncmgr 2 (headers s) (inflightBlockReqs s) (disconnected s))
  else
    match last msg with
    | None => (s, None) (* unreachable: OnHeaders drops empty messages *)
    | Some latestHeader =>
        match RequestHeaders (Hash latestHeader) with
        | Ok _ => (s, None)
        | Err e => (s, Some e)
        end
    end
  end end.

(** OnHeaders receives 'headers' msgs from another peer and adds them to the
    chain. *)
Definition OnHeaders (s : Syncmgr) (p : Peer) (msg : list Header) : Syncmgr :=
  if decide (length msg < 1)%nat then s
  else if decide (Mode s = 1) then (HeadersFirstMode s p msg).1
  else s.

Lemma append_hashes (acc : list (list Z)) (msg : list Header) :
  foldl (λ hashes header, hashes ++ [Hash header]) acc msg = acc ++ (Hash <$> msg).
Proof.
  revert acc. induction msg as [| header msg IH]; intros acc; simpl.
  - now rewrite app_nil_r.
  - rewrite IH, <- app_assoc. reflexivity.
Qed.

(** What a validated and stored message of [n] headers (other than the 2000
    that switch the mode) adds to the slice: [n] nil entries, then the [n]
    hashes in message order. *)
Lemma HeadersFirstMode_headers (s : Syncmgr) (p : Peer) (msg : list Header) :
  ValidateHeaders msg = None ->
  AddHeaders msg = None ->
  length msg <> 2000%nat ->
  headers (HeadersFirstMode s p msg).1 =
    headers s ++ replicate (length msg) [] ++ (Hash <$> msg).
Proof.
  intros Hv Ha Hn. unfold HeadersFirstMode. rewrite Hv, Ha.
  rewrite decide_False by exact Hn. rewrite append_hashes. unfold make_hashes.
  destruct (last msg) as [latestHeader |]; [| reflexivity].
  destruct (RequestHeaders (Hash latestHeader)); reflexivity.
Qed.

(** *** Requests for blocks *)

Lemma reqAmount_take (hs : list (list Z)) :
  take (if decide (maxBlockRequestPerPeer <= length hs)%nat
        then maxBlockRequestPerPeer else length hs) hs
  = take maxBlockRequestPerPeer hs.
Proof.
  destruct (decide (maxBlockRequestPerPeer <= length hs)%nat); [reflexivity |].
  rewrite firstn_all, take_ge by lia. reflexivity.
Qed.

Lemma reqAmount_drop (hs : list (list Z)) :
  drop (if decide (maxBlockRequestPerPeer <= length hs)%nat
        then maxBlockRequestPerPeer else length hs) hs
  = drop maxBlockRequestPerPeer hs.
Proof.
  destruct (decide (maxBlockRequestPerPeer <= length hs)%nat); [reflexivity |].
  rewrite drop_all, drop_ge by lia. reflexivity.
Qed.

Lemma inflight_registered (peer : Peer) (hs : list (list Z)) (m : gmap string Peer) :
  let m' := foldl (λ m hash, <[EncodeToString hash := peer]> m) m hs in
  (forall hash, hash ∈ hs -> m' !! EncodeToString hash = Some peer) /\
  (forall key, (forall hash, hash ∈ hs -> EncodeToString hash <> key) ->
               m' !! key = m !! key).
Proof.
  induction hs as [| h hs IH] using rev_ind; simpl.
  - split; [intros hash Hin; inversion Hin | reflexivity].
  - rewrite foldl_app. simpl. destruct IH as [IHin IHout]. split.
    + intros hash Hin.
      destruct (decide (EncodeToString h = EncodeToString hash)) as [Heq | Hne].
      * rewrite Heq. apply lookup_insert_eq.
      * rewrite lookup_insert_ne by exact Hne.
        apply elem_of_app in Hin as [Hin | Hin]; [now apply IHin |].
        apply list_elem_of_singleton in Hin. congruence.
    + intros key Hout. rewrite lookup_insert_ne.
      * apply IHout. intros hash Hin. apply Hout, elem_of_app. now left.
      * apply Hout, elem_of_app. right. now apply list_elem_of_singleton.
Qed.

Lemma RequestMoreBlocks_blocks (s : Syncmgr) :
  match RequestBlocks (take maxBlockRequestPerPeer (headers s)) with
  | Err e => RequestMoreBlocks s = (s, Some e)
  | Ok peer =>
      (RequestMoreBlocks s).2 = None /\
      Mode (RequestMoreBlocks s).1 = Mode s /\
      headers (RequestMoreBlocks s).1 = drop maxBlockRequestPerPeer (headers s)
  end.
Proof.
  unfold RequestMoreBlocks. cbv zeta. rewrite reqAmount_take, reqAmount_drop.
  destruct (RequestBlocks (take maxBlockRequestPerPeer (headers s))) as [peer | e];
    [| reflexivity].
  auto.
Qed.

(** [RequestMoreBlocks] asks a peer for the first 16 pending hashes.  When
    the peer manager fails, the manager is left as it was.  Otherwise the
    requested hashes leave the slice, and every hash that was pending, the
    ones beyond the 16th included, is entered in the in-flight map under
    the peer; the other keys of the map are untouched. *)
Theorem RequestMoreBlocks_registers_all (s : Syncmgr) :
  match RequestBlocks (take maxBlockRequestPerPeer (headers s)) with
  | Err e => RequestMoreBlocks s = (s, Some e)
  | Ok peer =>
      let s' := (RequestMoreBlocks s).1 in
      (RequestMoreBlocks s).2 = None /\
      Mode s' = Mode s /\
      headers s' = drop maxBlockRequestPerPeer (headers s) /\
      (forall hash, hash ∈ headers s ->
         inflightBlockReqs s' !! EncodeToString hash = Some peer) /\
      (forall key, (forall hash, hash ∈ headers s -> EncodeToString hash <> key) ->
         inflightBlockReqs s' !! key = inflightBlockReqs s !! key)
  end.
Proof.
  unfold RequestMoreBlocks. cbv zeta. rewrite reqAmount_take, reqAmount_drop.
  destruct (RequestBlocks (take maxBlockRequestPerPeer (headers s))) as [peer | e];
    [| reflexivity].
  cbn [fst snd Mode headers inflightBlockReqs].
  destruct (inflight_registered peer (headers s) (inflightBlockReqs s)) as [Hin Hout].
  auto.
Qed.

(** *** What a headers message can change *)

(** [OnHeaders] changes the pending hashes, the in-flight map or the mode
    only for a non-empty message received in mode 1 that validates and is
    stored. *)
Theorem OnHeaders_changes_only_when_stored (s : Syncmgr) (p : Peer) (msg : list Header) :
  headers (OnHeaders s p msg) <> headers s \/
  inflightBlockReqs (OnHeaders s p msg) <> inflightBlockReqs s \/
  Mode (OnHeaders s p msg) <> Mode s ->
  Mode s = 1 /\ msg <> [] /\ ValidateHeaders msg = None /\ AddHeaders msg = None.
Proof.
  unfold OnHeaders.
  destruct (decide (length msg < 1)%nat) as [Hlen | Hlen]; [tauto |].
  destruct (decide (Mode s = 1)) as [Hmode | Hmode]; [| tauto].
  unfold HeadersFirstMode.
  destruct (ValidateHeaders msg) as [e |]; [simpl; tauto |].
  destruct (AddHeaders msg) as [e |]; [simpl; tauto |].
  intros _. repeat split; [exact Hmode |].
  intros ->. simpl in Hlen. lia.
Qed.

(** A full message of 2000 headers that validates and is stored switches
    the manager to mode 2, whether or not the request for blocks that
    follows succeeds.  The request is for the first 16 entries of the
    pending hashes followed by the 2000 nil entries, so none of the hashes
    of the message itself is requested. *)
Theorem HeadersFirstMode_switch (s : Syncmgr) (p : Peer) (msg : list Header) :
  ValidateHeaders msg = None ->
  AddHeaders msg = None ->
  length msg = 2000%nat ->
  let pending := headers s ++ replicate (length msg) [] ++ (Hash <$> msg) in
  Mode (HeadersFirstMode s p msg).1 = 2 /\
  match RequestBlocks
          (take maxBlockRequestPerPeer (headers s ++ replicate (length msg) [])) with
  | Err e =>
      (HeadersFirstMode s p msg).2 = Some e /\
      headers (HeadersFirstMode s p msg).1 = pending
  | Ok peer =>
      (HeadersFirstMode s p msg).2 = None /\
      headers (HeadersFirstMode s p msg).1 = drop maxBlockRequestPerPeer pending
  end.
Proof.
  intros Hv Ha Hn pending. unfold HeadersFirstMode. rewrite Hv, Ha.
  rewrite decide_True by exact Hn. rewrite append_hashes. unfold make_hashes.
  cbn [headers inflightBlockReqs disconnected Mode].
  fold pending.
  set (s2 := mkSyncmgr 2 pending (inflightBlockReqs s) (disconnected s)).
  pose proof (RequestMoreBlocks_blocks s2) as Hreq.
  assert (Htake : take maxBlockRequestPerPeer pending =
                  take maxBlockRequestPerPeer (headers s ++ replicate (length msg) [])).
  { unfold pending. rewrite app_assoc. apply take_app_le.
    rewrite length_app, length_replicate, Hn. unfold maxBlockRequestPerPeer. lia. }
  cbn [headers s2] in Hreq. rewrite Htake in Hreq.
  destruct (RequestBlocks
              (take maxBlockRequestPerPeer (headers s ++ replicate (length msg) [])))
    as [peer | e].
  - destruct Hreq as (Herr & Hmode & Hheaders). now rewrite Herr, Hmode, Hheaders.
  - now rewrite Hreq.
Qed.

End Headers.

(** A header is its hash; validation, storage and the peer manager never
    fail. *)
Definition one_header : list (list Z) := [replicate 32 0xab].

Definition empty_manager : @Syncmgr () :=
  mkSyncmgr 1 [] ∅ [].

(** C9 (evaluation at the failing input). A validated and stored message of
    one header grows the slice by two entries, the first of which is the
    nil slice and the second the hash of the header. *)
Theorem HeadersFirstMode_one_header :
  headers
    (HeadersFirstMode (Error := ()) id (λ _, None) (λ _, None) (λ _, Ok ()) (λ _, Ok ())
       empty_manager () one_header).1
  = [[]; replicate 32 0xab].
Proof. reflexivity. Qed.

Lemma OnHeaders_changes_only_when_stored_witness :
  let on_headers :=
    OnHeaders (Error := ()) id (λ _, None) (λ _, None) (λ _, Ok ()) (λ _, Ok ()) in
  headers (on_headers empty_manager () one_header) <> headers empty_manager /\
  Mode empty_manager = 1 /\ one_header <> [].
Proof.
  assert (Hchanged :
    headers (OnHeaders (Error := ()) id (λ _, None) (λ _, None) (λ _, Ok ()) (λ _, Ok ())
               empty_manager () one_header) <> headers empty_manager)
    by (vm_compute; discriminate).
  split; [exact Hchanged |].
  destruct (OnHeaders_changes_only_when_stored (Error := ()) id (λ _, None) (λ _, None)
              (λ _, Ok ()) (λ _, Ok ()) empty_manager () one_header
              (or_introl Hchanged)) as (Hmode & Hmsg & _).
  split; [exact Hmode | exact Hmsg].
Defined.

(** A full message: 2000 headers with the same hash. *)
Definition full_message : list (list Z) := replicate 2000 [7].

Lemma HeadersFirstMode_switch_witness :
  let r :=
    HeadersFirstMode (Error := ()) id (λ _, None) (λ _, None) (λ _, Ok ()) (λ _, Ok ())
      empty_manager () full_message in
  Mode r.1 = 2 /\
  r.2 = None /\
  headers r.1 =
    drop maxBlockRequestPerPeer
      ([] ++ replicate (length full_message) [] ++ (id <$> full_message)).
Proof.
  exact (HeadersFirstMode_switch (Error := ()) id (λ _, None) (λ _, None)
           (λ _, Ok ()) (λ _, Ok ()) empty_manager () full_message
           eq_refl eq_refl eq_refl).
Defined.

End Syncmgr.

(** ** Package agreement: the store of collected agreements
    (src/unnamed/part_004) *)
Module Agreement.
Local Open Scope Z_scope.

(** [sort.Search] of the Go library: the smallest index in [0, n) at which
    [f] is true, assuming [f] is false on a prefix and true on the rest; [n]
    when there is none. *)
Equations? search_loop (f : Z -> bool) (i j : Z) : Z by wf (Z.to_nat (j - i)) lt :=
  search_loop f i j with decide (i < j) => {
    | left _ with f (Z.shiftr (i + j) 1) => {
        | true := search_loop f i (Z.shiftr (i + j) 1);
        | false := search_loop f (Z.shiftr (i + j) 1 + 1) j };
    | right _ := i }.
Proof.
  all: rewrite Z.shiftr_div_pow2 by lia; change (2 ^ 1) with 2;
    pose proof (Z.div_le_lower_bound (i + j) 2 i); 
    pose proof (Z.div_lt_upper_bound (i + j) 2 j); lia.
Qed.

Definition Search (n : Z) (f : Z -> bool) : Z := search_loop f 0 n.

Example search_example : Search 5 (λ i, 3 <=? i) = 3.
Proof. reflexivity. Qed.

(** [f] does not fall back to false on [[i, j)]. *)
Definition monotone_on (f : Z -> bool) (i j : Z) : Prop :=
  forall x y, i <= x -> x <= y -> y < j -> f x = true -> f y = true.

Lemma shiftr_1_bounds (i j : Z) :
  i < j -> i <= Z.shiftr (i + j) 1 < j.
Proof.
  intros Hij. rewrite Z.shiftr_div_pow2 by lia. change (2 ^ 1) with 2.
  pose proof (Z.div_le_lower_bound (i + j) 2 i).
  pose proof (Z.div_lt_upper_bound (i + j) 2 j). lia.
Qed.

(** Binary search on a monotone predicate returns the boundary: everything
    before the result is false, and the result is true unless it is the end
    of the range. *)
Lemma search_loop_spec (f : Z -> bool) (i j : Z) :
  i <= j ->
  monotone_on f i j ->
  i <= search_loop f i j <= j /\
  (forall x, i <= x < search_loop f i j -> f x = false) /\
  (search_loop f i j < j -> f (search_loop f i j) = true).
Proof.
  funelim (search_loop f i j); intros Hij Hmono.
  - (* empty range *)
    split; [lia |]. split; [intros x Hx; lia | lia].
  - (* f h = true: continue on [i, h) *)
    pose proof (shiftr_1_bounds i j l) as Hh.
    destruct H as (Hrange & Hfalse & Htrue); [lia | |].
    { intros x y Hx Hxy Hy. apply Hmono; lia. }
    split; [lia |]. split; [exact Hfalse |].
    intros _.
    destruct (decide (search_loop f i (Z.shiftr (i + j) 1) < Z.shiftr (i + j) 1))
      as [Hlt | Hge]; [now apply Htrue |].
    replace (search_loop f i (Z.shiftr (i + j) 1)) with (Z.shiftr (i + j) 1) by lia.
    exact Heq.
  - (* f h = false: continue on [h + 1, j) *)
    pose proof (shiftr_1_bounds i j l) as Hh.
    destruct H as (Hrange & Hfalse & Htrue); [lia | |].
    { intros x y Hx Hxy Hy. apply Hmono; lia. }
    split; [lia |]. split; [| exact Htrue].
    intros x Hx.
    destruct (decide (x <= Z.shiftr (i + j) 1)) as [Hle | Hgt].
    + destruct (f x) eqn:Hfx; [| reflexivity].
      rewrite (Hmono x (Z.shiftr (i + j) 1)) in Heq by (lia || exact Hfx).
      discriminate.
    + apply Hfalse. lia.
Qed.

Lemma Search_spec (n : Z) (f : Z -> bool) :
  0 <= n ->
  monotone_on f 0 n ->
  0 <= Search n f <= n /\
  (forall x, 0 <= x < Search n f -> f x = false) /\
  (Search n f < n -> f (Search n f) = true).
Proof. apply search_loop_spec. Qed.

(** The result of a search is the first true index, when there is one. *)
Lemma Search_first (n : Z) (f : Z -> bool) (k : Z) :
  0 <= k < n ->
  monotone_on f 0 n ->
  f k = true ->
  (forall x, 0 <= x < k -> f x = false) ->
  Search n f = k.
Proof.
  intros Hk Hmono Htrue Hfalse.
  destruct (Search_spec n f) as (Hrange & Hbefore & Hat); [lia | exact Hmono |].
  destruct (Z.lt_trichotomy (Search n f) k) as [Hlt | [Heq | Hgt]].
  - rewrite Hfalse in Hat by lia. specialize (Hat ltac:(lia)). discriminate.
  - exact Heq.
  - rewrite Hbefore in Htrue by lia. discriminate.
Qed.

(** The store: the agreements collected per step.  A step without entry
    reads as the nil slice. *)
Abbreviation store Agreement := (gmap Z (list Agreement)).

Section Store.
Context {Agreement : Type}.
(** The step of the header, the order on the integer representation of the
    signed votes, equality of agreements, and the zero value [Agreement{}]. *)
Context (Step : Agreement -> Z).
Context (Cmp : Agreement -> Agreement -> Z).
Context (Equal : Agreement -> Agreement -> bool).
Context (zero : Agreement).

Definition newStore : store Agreement := ∅.

(** [stored[i]] for an [int] index. *)
Definition index (stored : list Agreement) (i : Z) : option Agreement :=
  if decide (0 <= i) then stored !! Z.to_nat i else None.

Definition len (stored : list Agreement) : Z := Z.of_nat (length stored).

Definition Size (s : store Agreement) : Z :=
  map_fold (λ _ v i, i + len v) 0 s.

Definition Get (s : store Agreement) (step : Z) : list Agreement :=
  default [] (s !! step).

(** The predicate [find] searches with: [stored[i].Cmp(a) <= 0].  (An index
    out of range would panic; [Search] stays within the slice.) *)
Definition at_most (stored : list Agreement) (a : Agreement) (i : Z) : bool :=
  match index stored i with
  | Some x => bool_decide (Cmp x a <= 0)
  | None => false
  end.

(** find returns the index of an Agreement in the stored collection or, if
    the Agreement has not been stored, the index at which it would be
    stored.  In case no Agreement is stored for the step, it returns -1. *)
Definition find (s : store Agreement) (a : Agreement) : Z :=
  match s !! Step a with
  | None => -1
  | Some stored => Search (len stored) (at_most stored a)
  end.

Definition contains (s : store Agreement) (idx : Z) (a : Agreement) : bool :=
  let stored := Get s (Step a) in
  if decide (idx = -1) then false
  else if decide (idx < len stored) then
    match index stored idx with
    | Some x => Equal x a
    | None => false
    end
  else false.

Definition Find (s : store Agreement) (a : Agreement) : Z := find s a.

Definition Contains (s : store Agreement) (a : Agreement) : bool :=
  contains s (find s a) a.

(** One round of the insertion loop: [append(stored, Agreement{})], then
    [copy(stored[idx+1:], stored[idx:])], then [stored[idx] = a]. *)
Definition insert_one (idx : nat) (a : Agreement) (stored : list Agreement)
  : list Agreement :=
  let stored := stored ++ [zero] in
  let moved := take (length stored - (idx + 1)) (drop idx stored) in
  let stored := take (idx + 1) stored ++ moved in
  <[idx := a]> stored.

(** Insert collects the Agreement and returns the number of agreements
    stored for its step; [None] is the panic of [make] on a negative
    length. *)
Definition Insert (s : store Agreement) (a : Agreement) (weight : Z)
  : option (store Agreement * Z) :=
  let idx := find s a in
  if decide (idx = -1) then
    if decide (weight < 0) then None
    else
      let agreements := replicate (Z.to_nat weight) a in
      Some (<[Step a := agreements]> s, weight)
  else
    let stored := Get s (Step a) in
    (* if the Agreement is already in the store we do not add it *)
    if contains s idx a then Some (s, len stored)
    else
      let stored := Nat.iter (Z.to_nat weight) (insert_one (Z.to_nat idx) a) stored in
      Some (<[Step a := stored]> s, len stored).

Definition Clear (s : store Agreement) : store Agreement := ∅.

(** When the store's own [Contains] finds [a], [Insert a w] returns the
    number of agreements stored for the step of [a] and the store as it
    was, whatever the weight. *)
Theorem Insert_contained (s : store Agreement) (a : Agreement) (w : Z) :
  Contains s a = true ->
  Insert s a w = Some (s, len (Get s (Step a))).
Proof.
  unfold Contains, Insert. intros Hc.
  destruct (decide (find s a = -1)) as [Hidx | Hidx].
  - unfold contains in Hc. rewrite Hidx in Hc. simpl in Hc. discriminate.
  - now rewrite Hc.
Qed.

(** *** Inserting, then asking again *)

Lemma insert_one_eq (idx : nat) (a : Agreement) (stored : list Agreement) :
  (idx <= length stored)%nat ->
  insert_one idx a stored = take idx stored ++ a :: drop idx stored.
Proof.
  intros Hidx. unfold insert_one.
  rewrite length_app. simpl.
  rewrite drop_app_le by exact Hidx.
  replace (length stored + 1 - (idx + 1))%nat with (length (drop idx stored))
    by (rewrite length_drop; lia).
  replace (idx + 1)%nat with (S idx) by lia.
  rewrite take_app_length.
  destruct (decide (idx = length stored)) as [-> | Hne].
  - rewrite take_app_ge by lia.
    replace (S (length stored) - length stored)%nat with 1%nat by lia.
    rewrite drop_all, app_nil_r, firstn_all. simpl.
    replace (length stored) with (length stored + 0)%nat at 1 by lia.
    now rewrite insert_app_r.
  - rewrite take_app_le by lia.
    rewrite (take_S_r stored idx (default zero (stored !! idx))).
    + rewrite <- app_assoc. simpl.
      replace idx with (length (take idx stored) + 0)%nat at 1
        by (rewrite length_take_le; lia).
      now rewrite insert_app_r.
    + destruct (lookup_lt_is_Some_2 stored idx) as [x Hx]; [lia |].
      now rewrite Hx.
Qed.

Lemma iter_insert_one (w idx : nat) (a : Agreement) (stored : list Agreement) :
  (idx <= length stored)%nat ->
  Nat.iter w (insert_one idx a) stored =
    take idx stored ++ replicate w a ++ drop idx stored.
Proof.
  intros Hidx. induction w as [| w IH]; simpl.
  - now rewrite take_drop.
  - rewrite IH, insert_one_eq.
    + rewrite take_app_le by (rewrite length_take_le; lia).
      rewrite take_take, Nat.min_id.
      rewrite drop_app_length' by (rewrite length_take_le; lia).
      reflexivity.
    + rewrite length_app, length_take_le; lia.
Qed.

Lemma index_inserted (stored : list Agreement) (k w : nat) (a : Agreement) (i : Z) :
  (k <= length stored)%nat ->
  0 <= i ->
  index (take k stored ++ replicate w a ++ drop k stored) i =
    if decide (i < Z.of_nat k) then index stored i
    else if decide (i < Z.of_nat k + Z.of_nat w) then Some a
    else index stored (i - Z.of_nat w).
Proof.
  intros Hk Hi. unfold index.
  rewrite decide_True by exact Hi.
  destruct (decide (i < Z.of_nat k)) as [Hlt | Hge].
  - rewrite lookup_app_l by (rewrite length_take_le; lia).
    rewrite lookup_take_lt by lia. now rewrite decide_True by exact Hi.
  - rewrite lookup_app_r by (rewrite length_take_le; lia).
    rewrite length_take_le by lia.
    destruct (decide (i < Z.of_nat k + Z.of_nat w)) as [Hlt' | Hge'].
    + rewrite lookup_app_l by (rewrite length_replicate; lia).
      now rewrite lookup_replicate_2 by lia.
    + rewrite lookup_app_r by (rewrite length_replicate; lia).
      rewrite length_replicate, lookup_drop.
      rewrite decide_True by lia. f_equal. lia.
Qed.

Lemma find_Some (s : store Agreement) (a : Agreement) (stored : list Agreement) :
  s !! Step a = Some stored ->
  find s a = Search (len stored) (at_most stored a) /\ Get s (Step a) = stored.
Proof. intros Hs. unfold find, Get. now rewrite Hs. Qed.

(** After a successful [Insert] with a positive weight the store contains
    the agreement, provided [Equal] and [Cmp] are reflexive and the slice of
    the step is ordered for the search ([at_most] does not fall back to
    false, as on a slice sorted in decreasing order). *)
Lemma Insert_then_Contains (s : store Agreement) (a : Agreement) (w : Z) :
  Equal a a = true ->
  Cmp a a <= 0 ->
  0 < w ->
  monotone_on (at_most (Get s (Step a)) a) 0 (len (Get s (Step a))) ->
  exists s',
    Insert s a w = Some (s', len (Get s' (Step a))) /\ Contains s' a = true.
Proof.
  intros Hrefl Hcmp Hw Hmono. unfold Insert.
  destruct (s !! Step a) as [stored |] eqn:Hs.
  - destruct (find_Some s a stored Hs) as [Hfind Hget].
    rewrite Hget in Hmono |- *.
    destruct (Search_spec (len stored) (at_most stored a)) as (Hrange & Hbefore & Hat);
      [unfold len; lia | exact Hmono |].
    rewrite <- Hfind in Hrange, Hbefore, Hat.
    rewrite decide_False by lia.
    destruct (contains s (find s a) a) eqn:Hc.
    + exists s. rewrite Hget. split; [reflexivity | exact Hc].
    + rewrite iter_insert_one by (unfold len in Hrange; lia).
      set (k := Z.to_nat (find s a)) in *. set (n := Z.to_nat w) in *.
      set (stored' := take k stored ++ replicate n a ++ drop k stored).
      assert (Hk : (k <= length stored)%nat) by (unfold len in Hrange; lia).
      assert (Hlen : len stored' = len stored + w).
      { unfold len, stored'. rewrite !length_app, length_take_le by exact Hk.
        rewrite length_replicate, length_drop. lia. }
      assert (Hidx : forall i, 0 <= i ->
                index stored' i =
                  if decide (i < find s a) then index stored i
                  else if decide (i < find s a + w) then Some a
                  else index stored (i - w)).
      { intros i Hi. unfold stored'. rewrite index_inserted by assumption.
        replace (Z.of_nat k) with (find s a) by lia.
        replace (Z.of_nat n) with w by lia. reflexivity. }
      exists (<[Step a := stored']> s).
      assert (Hget' : Get (<[Step a := stored']> s) (Step a) = stored')
        by (unfold Get; now rewrite lookup_insert_eq).
      rewrite Hget'. split; [reflexivity |].
      unfold Contains.
      assert (Hfind' : find (<[Step a := stored']> s) a = find s a).
      { unfold find at 1. rewrite lookup_insert_eq.
        apply Search_first.
        - lia.
        - intros x y Hx Hxy Hy. unfold at_most. rewrite !Hidx by lia.
          destruct (decide (x < find s a)) as [Hxl | Hxg].
          { fold (at_most stored a x). rewrite Hbefore by lia. discriminate. }
          intros _. rewrite decide_False by lia.
          destruct (decide (y < find s a + w)); [now apply bool_decide_eq_true |].
          fold (at_most stored a (y - w)).
          apply (Hmono (find s a) (y - w)); [lia | lia | lia |].
          apply Hat. lia.
        - unfold at_most. rewrite Hidx by lia.
          rewrite decide_False, decide_True by lia.
          now apply bool_decide_eq_true.
        - intros x Hx. unfold at_most. rewrite Hidx by lia.
          rewrite decide_True by lia. fold (at_most stored a x).
          apply Hbefore. lia. }
      rewrite Hfind'. unfold contains. rewrite Hget'.
      rewrite decide_False, decide_True by lia.
      rewrite Hidx by lia. rewrite decide_False, decide_True by lia.
      exact Hrefl.
  - unfold find. rewrite Hs. rewrite decide_True by reflexivity.
    rewrite decide_False by lia.
    set (stored' := replicate (Z.to_nat w) a).
    exists (<[Step a := stored']> s).
    assert (Hget' : Get (<[Step a := stored']> s) (Step a) = stored')
      by (unfold Get; now rewrite lookup_insert_eq).
    assert (Hlen : len stored' = w)
      by (unfold len, stored'; rewrite length_replicate; lia).
    rewrite Hget', Hlen. split; [reflexivity |].
    assert (Hatm : forall x, 0 <= x < w -> at_most stored' a x = true).
    { intros x Hx. unfold at_most, index, stored'.
      rewrite decide_True by lia. rewrite lookup_replicate_2 by lia.
      now apply bool_decide_eq_true. }
    unfold Contains.
    assert (Hfind' : find (<[Step a := stored']> s) a = 0).
    { unfold find. rewrite lookup_insert_eq. apply Search_first.
      - lia.
      - intros x y Hx Hxy Hy _. apply Hatm. lia.
      - apply Hatm. lia.
      - intros x Hx. lia. }
    rewrite Hfind'. unfold contains. rewrite Hget'.
    rewrite decide_False, decide_True by lia.
    unfold index, stored'. rewrite decide_True by lia.
    rewrite lookup_replicate_2 by lia. exact Hrefl.
Qed.

(** No agreement is counted twice: inserting again what was just inserted
    changes neither the store nor the count. *)
Lemma Insert_twice (s : store Agreement) (a : Agreement) (w w' : Z) :
  Equal a a = true ->
  Cmp a a <= 0 ->
  0 < w ->
  monotone_on (at_most (Get s (Step a)) a) 0 (len (Get s (Step a))) ->
  exists s' n,
    Insert s a w = Some (s', n) /\ Insert s' a w' = Some (s', n).
Proof.
  intros Hrefl Hcmp Hw Hmono.
  destruct (Insert_then_Contains s a w Hrefl Hcmp Hw Hmono) as (s' & Hins & Hc).
  exists s', (len (Get s' (Step a))). split; [exact Hins |].
  unfold Contains in Hc. unfold Insert.
  destruct (decide (find s' a = -1)) as [Hidx | Hidx].
  - unfold contains in Hc. rewrite Hidx in Hc. simpl in Hc. discriminate.
  - now rewrite Hc.
Qed.

(** A slice is ordered when it decreases along its indices. *)
Definition ordered (stored : list Agreement) : Prop :=
  forall (i j : nat) (x y : Agreement),
    (i <= j)%nat -> stored !! i = Some x -> stored !! j = Some y -> Cmp y x <= 0.

(** On an ordered slice the predicate of [find] does not fall back to false,
    when [Cmp] is transitive. *)
Lemma ordered_monotone (stored : list Agreement) (a : Agreement) :
  (forall x y z, Cmp x y <= 0 -> Cmp y z <= 0 -> Cmp x z <= 0) ->
  ordered stored ->
  monotone_on (at_most stored a) 0 (len stored).
Proof.
  intros Htrans Hord x y Hx Hxy Hy. unfold at_most, index.
  rewrite !decide_True by lia.
  destruct (stored !! Z.to_nat x) as [ax |] eqn:Hax; [| discriminate].
  destruct (lookup_lt_is_Some_2 stored (Z.to_nat y)) as [ay Hay];
    [unfold len in Hy; lia |].
  rewrite Hay, !bool_decide_eq_true. intros Hle.
  apply (Htrans ay ax a); [| exact Hle].
  apply (Hord (Z.to_nat x) (Z.to_nat y)); [lia | exact Hax | exact Hay].
Qed.

(** *** What [Insert] returns and stores *)

(** Whatever the predicate, a search stays within its range. *)
Lemma search_loop_range (f : Z -> bool) (i j : Z) :
  i <= j -> i <= search_loop f i j <= j.
Proof.
  funelim (search_loop f i j); intros Hij.
  - lia.
  - pose proof (shiftr_1_bounds i j l) as Hh. specialize (H ltac:(lia)). lia.
  - pose proof (shiftr_1_bounds i j l) as Hh. specialize (H ltac:(lia)). lia.
Qed.

Lemma find_range (s : store Agreement) (a : Agreement) (stored : list Agreement) :
  s !! Step a = Some stored -> 0 <= find s a <= len stored.
Proof.
  intros Hs. unfold find. rewrite Hs. apply search_loop_range. unfold len. lia.
Qed.

Lemma len_replicate (w : Z) (a : Agreement) :
  0 <= w -> len (replicate (Z.to_nat w) a) = w.
Proof. intros Hw. unfold len. rewrite length_replicate. lia. Qed.

(** The count [Insert] returns is the number of agreements stored for the
    step of the agreement once the call is over, and the slices of the
    other steps are left as they were. *)
Theorem Insert_count_and_frame (s s' : store Agreement) (a : Agreement) (w n : Z) :
  Insert s a w = Some (s', n) ->
  n = len (Get s' (Step a)) /\
  (forall step, step <> Step a -> s' !! step = s !! step).
Proof.
  unfold Insert.
  destruct (decide (find s a = -1)) as [Hidx | Hidx].
  - destruct (decide (w < 0)) as [Hw | Hw]; [discriminate |].
    intros [= <- <-]. unfold Get. rewrite lookup_insert_eq. simpl. split.
    + symmetry. apply len_replicate. lia.
    + intros step Hstep. now rewrite lookup_insert_ne.
  - destruct (contains s (find s a) a).
    + intros [= <- <-]. auto.
    + intros [= <- <-]. unfold Get. rewrite lookup_insert_eq. simpl. split.
      * reflexivity.
      * intros step Hstep. now rewrite lookup_insert_ne.
Qed.

(** An agreement the store does not contain is added [w] times, and
    nothing stored for its step is lost or duplicated: the slice afterwards
    is, up to order, the [w] copies followed by the slice before. *)
Theorem Insert_grows (s : store Agreement) (a : Agreement) (w : Z) :
  Contains s a = false ->
  0 <= w ->
  exists s',
    Insert s a w = Some (s', len (Get s (Step a)) + w) /\
    Get s' (Step a) ≡ₚ replicate (Z.to_nat w) a ++ Get s (Step a).
Proof.
  unfold Contains. intros Hc Hw. unfold Insert. rewrite Hc.
  destruct (s !! Step a) as [stored |] eqn:Hs.
  - pose proof (find_range s a stored Hs) as Hrange.
    destruct (find_Some s a stored Hs) as [_ Hget]. rewrite Hget.
    rewrite decide_False by lia.
    rewrite iter_insert_one by (unfold len in Hrange; lia).
    eexists. split.
    + f_equal. f_equal. unfold len in *.
      rewrite !length_app, length_take_le, length_replicate, length_drop; lia.
    + unfold Get. rewrite lookup_insert_eq. simpl.
      rewrite app_assoc, (Permutation_app_comm (take _ _)), <- app_assoc.
      now rewrite take_drop.
  - unfold find, Get. rewrite Hs.
    rewrite decide_True by reflexivity. rewrite decide_False by lia.
    eexists. split.
    + reflexivity.
    + rewrite lookup_insert_eq. simpl. now rewrite app_nil_r.
Qed.

(** A negative weight makes [Insert] panic exactly when nothing is stored
    yet for the step (the slice it would make has a negative length);
    otherwise the call leaves the store as it is and returns the number of
    agreements of the step. *)
Theorem Insert_negative_weight (s : store Agreement) (a : Agreement) (w : Z) :
  w < 0 ->
  match s !! Step a with
  | None => Insert s a w = None
  | Some stored => Insert s a w = Some (s, len stored)
  end.
Proof.
  intros Hw. unfold Insert.
  destruct (s !! Step a) as [stored |] eqn:Hs.
  - pose proof (find_range s a stored Hs) as Hrange.
    destruct (find_Some s a stored Hs) as [_ Hget]. rewrite Hget.
    rewrite decide_False by lia.
    destruct (contains s (find s a) a); [reflexivity |].
    replace (Z.to_nat w) with 0%nat by lia. simpl.
    now rewrite insert_id.
  - unfold find. rewrite Hs. rewrite decide_True by reflexivity.
    now rewrite decide_True.
Qed.

Lemma lookup_inserted (stored : list Agreement) (k n i : nat) (a : Agreement) :
  (k <= length stored)%nat ->
  (take k stored ++ replicate n a ++ drop k stored) !! i =
    if decide (i < k)%nat then stored !! i
    else if decide (i < k + n)%nat then Some a
    else stored !! (i - n)%nat.
Proof.
  intros Hk.
  destruct (decide (i < k)%nat) as [Hlt | Hge].
  - rewrite lookup_app_l by (rewrite length_take_le; lia).
    now rewrite lookup_take_lt.
  - rewrite lookup_app_r by (rewrite length_take_le; lia).
    rewrite length_take_le by lia.
    destruct (decide (i < k + n)%nat) as [Hlt' | Hge'].
    + rewrite lookup_app_l by (rewrite length_replicate; lia).
      now rewrite lookup_replicate_2 by lia.
    + rewrite lookup_app_r by (rewrite length_replicate; lia).
      rewrite length_replicate, lookup_drop. f_equal. lia.
Qed.

(** [Insert] keeps the slice of a step ordered, when [Cmp] is a total
    preorder: the search of [find] puts the copies where they belong. *)
Theorem Insert_ordered (s s' : store Agreement) (a : Agreement) (w n : Z) :
  (forall x y z, Cmp x y <= 0 -> Cmp y z <= 0 -> Cmp x z <= 0) ->
  (forall x y, 0 < Cmp x y -> Cmp y x <= 0) ->
  ordered (Get s (Step a)) ->
  Insert s a w = Some (s', n) ->
  ordered (Get s' (Step a)).
Proof.
  intros Htrans Htotal Hord.
  assert (Hrefl : Cmp a a <= 0).
  { destruct (decide (Cmp a a <= 0)) as [Hle | Hgt]; [exact Hle |].
    apply Htotal. lia. }
  unfold Insert.
  destruct (s !! Step a) as [stored |] eqn:Hs.
  - pose proof (find_range s a stored Hs) as Hrange.
    destruct (find_Some s a stored Hs) as [Hfind Hget]. rewrite Hget in Hord |- *.
    rewrite decide_False by lia.
    destruct (contains s (find s a) a); [intros [= <- <-]; now rewrite Hget |].
    intros [= <- <-]. unfold Get. rewrite lookup_insert_eq. simpl.
    pose proof (ordered_monotone stored a Htrans Hord) as Hmono.
    destruct (Search_spec (len stored) (at_most stored a)) as (_ & Hbefore & Hat);
      [unfold len; lia | exact Hmono |].
    rewrite <- Hfind in Hbefore, Hat.
    set (k := Z.to_nat (find s a)) in *.
    assert (Hk : (k <= length stored)%nat) by (unfold len in Hrange; lia).
    rewrite iter_insert_one by exact Hk.
    assert (Hhigh : forall i x, (i < k)%nat -> stored !! i = Some x -> Cmp a x <= 0).
    { intros i x Hi Hx. apply Htotal.
      specialize (Hbefore (Z.of_nat i) ltac:(lia)).
      unfold at_most, index in Hbefore. rewrite decide_True in Hbefore by lia.
      rewrite Nat2Z.id, Hx in Hbefore. apply bool_decide_eq_false in Hbefore. lia. }
    assert (Hlow : forall j y, (k <= j)%nat -> stored !! j = Some y -> Cmp y a <= 0).
    { intros j y Hj Hy.
      pose proof (lookup_lt_Some _ _ _ Hy) as Hjlen.
      assert (Htrue : at_most stored a (Z.of_nat j) = true).
      { apply (Hmono (find s a)); [lia | lia | unfold len; lia |].
        apply Hat. unfold len. lia. }
      unfold at_most, index in Htrue. rewrite decide_True in Htrue by lia.
      rewrite Nat2Z.id, Hy in Htrue. now apply bool_decide_eq_true in Htrue. }
    intros i j x y Hij. rewrite !lookup_inserted by exact Hk.
    destruct (decide (i < k)%nat) as [Hik | Hik].
    + intros Hx. destruct (decide (j < k)%nat) as [Hjk | Hjk].
      * intros Hy. exact (Hord i j x y Hij Hx Hy).
      * destruct (decide (j < k + Z.to_nat w)%nat) as [Hjw | Hjw].
        -- intros [= <-]. exact (Hhigh i x Hik Hx).
        -- intros Hy. apply (Hord i (j - Z.to_nat w)%nat x y); [lia | exact Hx | exact Hy].
    + destruct (decide (i < k + Z.to_nat w)%nat) as [Hiw | Hiw].
      * intros [= <-]. rewrite decide_False by lia.
        destruct (decide (j < k + Z.to_nat w)%nat) as [Hjw | Hjw].
        -- intros [= <-]. exact Hrefl.
        -- intros Hy. apply (Hlow (j - Z.to_nat w)%nat y); [lia | exact Hy].
      * rewrite (decide_False (P := (j < k)%nat)) by lia.
        rewrite (decide_False (P := (j < k + Z.to_nat w)%nat)) by lia.
        intros Hx Hy.
        apply (Hord (i - Z.to_nat w)%nat (j - Z.to_nat w)%nat x y);
          [lia | exact Hx | exact Hy].
  - unfold find. rewrite Hs. rewrite decide_True by reflexivity.
    destruct (decide (w < 0)); [discriminate |].
    intros [= <- <-]. unfold Get. rewrite lookup_insert_eq. simpl.
    intros i j x y _ Hx Hy.
    apply lookup_replicate in Hx as [-> _]. apply lookup_replicate in Hy as [-> _].
    exact Hrefl.
Qed.

(** *** Agreements that are stored already *)


End Store.

(** *** A concrete store

    An agreement is the pair of its step and of the integer of its signed
    votes. *)
Definition demo_Cmp (x y : Z * Z) : Z :=
  match x.2 ?= y.2 with
  | Lt => -1
  | Eq => 0
  | Gt => 1
  end.

Definition demo_Equal (x y : Z * Z) : bool := bool_decide (x = y).

Definition demo_Insert := Insert (Agreement := Z * Z) fst demo_Cmp demo_Equal (0, 0).

Definition demo_Contains := Contains (Agreement := Z * Z) fst demo_Cmp demo_Equal.

(** Step 1 holds the agreements 9, 5, 5 and 2 (weights 1, 2 and 1). *)
Definition step1_store : store (Z * Z) :=
  {[ 1 := [(1, 9); (1, 5); (1, 5); (1, 2)] ]}.

Example inserts_build_step1_store :
  (s ← demo_Insert ∅ (1, 5) 2; s ← demo_Insert s.1 (1, 9) 1; demo_Insert s.1 (1, 2) 1)
  = Some (step1_store, 4).
Proof. vm_compute. reflexivity. Qed.

Lemma Insert_contained_witness :
  demo_Contains step1_store (1, 5) = true /\
  demo_Insert step1_store (1, 5) 3 = Some (step1_store, 4).
Proof.
  split; [reflexivity |].
  exact (Insert_contained fst demo_Cmp demo_Equal (0, 0) step1_store (1, 5) 3 eq_refl).
Defined.

(** The slice of step 1 is ordered for the search of 7: only 9 lies above. *)
Lemma step1_store_monotone_7 :
  monotone_on (at_most demo_Cmp (Get step1_store 1) (1, 7)) 0
    (len (Get step1_store 1)).
Proof.
  intros x y Hx Hxy Hy Htrue.
  change (len (Get step1_store 1)) with 4 in Hy.
  assert (Hcases : y = 0 \/ y = 1 \/ y = 2 \/ y = 3) by lia.
  destruct Hcases as [-> | [-> | [-> | ->]]]; try reflexivity.
  replace x with 0 in Htrue by lia. discriminate Htrue.
Qed.

Lemma Insert_twice_witness :
  exists s' n,
    demo_Insert step1_store (1, 7) 2 = Some (s', n) /\
    demo_Insert s' (1, 7) 5 = Some (s', n).
Proof.
  apply (Insert_twice fst demo_Cmp demo_Equal (0, 0) step1_store (1, 7) 2 5).
  - reflexivity.
  - discriminate.
  - lia.
  - exact step1_store_monotone_7.
Defined.

Example insert_7 :
  demo_Insert step1_store (1, 7) 2
  = Some ({[ 1 := [(1, 9); (1, 7); (1, 7); (1, 5); (1, 5); (1, 2)] ]}, 6).
Proof. vm_compute. reflexivity. Qed.

(** The order of the concrete store is a total preorder, and the slice of
    step 1 is ordered. *)
Lemma demo_Cmp_le (x y : Z * Z) : demo_Cmp x y <= 0 <-> x.2 <= y.2.
Proof. unfold demo_Cmp. destruct (Z.compare_spec x.2 y.2); lia. Qed.

Lemma demo_Cmp_trans (x y z : Z * Z) :
  demo_Cmp x y <= 0 -> demo_Cmp y z <= 0 -> demo_Cmp x z <= 0.
Proof. rewrite !demo_Cmp_le. lia. Qed.

Lemma demo_Cmp_total (x y : Z * Z) : 0 < demo_Cmp x y -> demo_Cmp y x <= 0.
Proof. pose proof (demo_Cmp_le x y). rewrite demo_Cmp_le. lia. Qed.

Lemma step1_store_ordered : ordered demo_Cmp (Get step1_store 1).
Proof.
  intros i j x y Hij Hx Hy. apply demo_Cmp_le.
  change (Get step1_store 1) with [(1, 9); (1, 5); (1, 5); (1, 2)] in Hx, Hy.
  destruct i as [| [| [| [| i]]]]; simpl in Hx; try discriminate;
    injection Hx as <-;
    (destruct j as [| [| [| [| j]]]]; simpl in Hy; try discriminate; try lia;
     injection Hy as <-; simpl; lia).
Qed.

Lemma Insert_count_and_frame_witness :
  let s' : store (Z * Z) := {[ 1 := [(1, 9); (1, 7); (1, 7); (1, 5); (1, 5); (1, 2)] ]} in
  demo_Insert step1_store (1, 7) 2 = Some (s', 6) /\
  6 = len (Get s' 1) /\
  (forall step, step <> 1 -> s' !! step = step1_store !! step).
Proof.
  split; [vm_compute; reflexivity |].
  apply (Insert_count_and_frame fst demo_Cmp demo_Equal (0, 0) step1_store _ (1, 7) 2 6).
  vm_compute. reflexivity.
Defined.

Lemma Insert_grows_witness :
  demo_Contains step1_store (1, 7) = false /\
  exists s',
    demo_Insert step1_store (1, 7) 2 = Some (s', 4 + 2) /\
    Get s' 1 ≡ₚ [(1, 7); (1, 7)] ++ [(1, 9); (1, 5); (1, 5); (1, 2)].
Proof.
  split; [reflexivity |].
  apply (Insert_grows fst demo_Cmp demo_Equal (0, 0) step1_store (1, 7) 2).
  - reflexivity.
  - lia.
Defined.

Lemma Insert_negative_weight_witness :
  demo_Insert step1_store (1, 7) (-1) = Some (step1_store, 4) /\
  demo_Insert step1_store (2, 7) (-1) = None.
Proof.
  split.
  - apply (Insert_negative_weight fst demo_Cmp demo_Equal (0, 0) step1_store (1, 7) (-1)).
    lia.
  - apply (Insert_negative_weight fst demo_Cmp demo_Equal (0, 0) step1_store (2, 7) (-1)).
    lia.
Defined.

Lemma Insert_ordered_witness :
  ordered demo_Cmp
    (Get ({[ 1 := [(1, 9); (1, 7); (1, 7); (1, 5); (1, 5); (1, 2)] ]} : store (Z * Z)) 1).
Proof.
  apply (Insert_ordered fst demo_Cmp demo_Equal (0, 0) step1_store _ (1, 7) 2 6).
  - exact demo_Cmp_trans.
  - exact demo_Cmp_total.
  - exact step1_store_ordered.
  - vm_compute. reflexivity.
Defined.


(** *** Agreements that tie without being equal

    An agreement is the pair of its sender and of the integer of its signed
    votes, all for step 1; the order looks at the integer only, equality at
    both. *)
Definition tie_Insert := Insert (Agreement := Z * Z) (λ _, 1) demo_Cmp demo_Equal (0, 0).

Definition tie_Contains := Contains (Agreement := Z * Z) (λ _, 1) demo_Cmp demo_Equal.


End Agreement.

(** ** Package republisher: repropagation of validated messages
    (src/unnamed/part_000) *)
Module Republisher.
Local Open Scope Z_scope.

Section Republish.
Context {Topic Error : Type}.
Context (Gossip : Topic).
(** [topics.Prepend]: the buffer with the topic in front, or an error. *)
Context (Prepend : list Z -> Topic -> result Error (list Z)).

(** A validator reads the message and returns an error or nil. *)
Definition Validator : Type := list Z -> option Error.

(** Republisher handles the repropagation of messages propagated with a
    specified topic.  The broker is the log of what was published on it,
    oldest first. *)
Record Republisher : Type := mkRepublisher {
  tpc : Topic;
  broker : list (Topic * list Z);
  id : Z;
  validators : list Validator;
}.

(** The loop over the validators: the first error ends it. *)
Fixpoint validate (vs : list Validator) (b : list Z) : option Error :=
  match vs with
  | [] => None
  | v :: vs =>
      match v b with
      | Some err => Some err
      | None => validate vs b
      end
  end.

(** Republish intercepts a topic and repropagates it immediately after
    applying any eventual validation logic. *)
Definition Republish (r : Republisher) (b : list Z) : Republisher * option Error :=
  match validate (validators r) b with
  | Some err => (r, Some err)
  | None =>
      match Prepend b (tpc r) with
      | Err err => (r, Some err)
      | Ok b =>
          (mkRepublisher (tpc r) (broker r ++ [(Gossip, b)]) (id r) (validators r),
           None)
      end
  end.

Lemma validate_None (vs : list Validator) (b : list Z) :
  validate vs b = None <-> Forall (λ v, v b = None) vs.
Proof.
  induction vs as [| v vs IH]; simpl.
  - split; [constructor | reflexivity].
  - destruct (v b) as [err |] eqn:Hv.
    + split; [discriminate | intros Hall; inversion Hall; congruence].
    + rewrite IH. split; [now constructor | intros Hall; now inversion Hall].
Qed.

(** A message is repropagated exactly when every validator accepts it and
    the topic can be prepended: [Republish] then returns nil and the
    prefixed message goes out on the gossip topic, once.  In every other
    case it returns an error and publishes nothing. *)
Theorem Republish_publishes_iff_valid (r : Republisher) (b : list Z) :
  ((Republish r b).2 = None <->
   Forall (λ v, v b = None) (validators r) /\ exists b', Prepend b (tpc r) = Ok b') /\
  match (Republish r b).2 with
  | None => exists b', Prepend b (tpc r) = Ok b' /\
                       broker (Republish r b).1 = broker r ++ [(Gossip, b')]
  | Some _ => (Republish r b).1 = r
  end.
Proof.
  unfold Republish. rewrite <- validate_None.
  destruct (validate (validators r) b) as [err |]; simpl.
  - split; [| reflexivity].
    split; [discriminate | intros [Hnone _]; discriminate].
  - destruct (Prepend b (tpc r)) as [b' | err]; simpl.
    + split; [split; eauto | eauto].
    + split; [| reflexivity].
      split; [discriminate | intros [_ [b' Hb']]; discriminate].
Qed.

(** The error of [Republish] is the error of the first validator, in the
    order they were given, that rejects the message; the validators after
    it and the prepending of the topic do not matter. *)
Theorem Republish_first_error (r : Republisher) (b : list Z)
    (passed : list Validator) (v : Validator) (rest : list Validator) (err : Error) :
  validators r = passed ++ v :: rest ->
  Forall (λ v, v b = None) passed ->
  v b = Some err ->
  Republish r b = (r, Some err).
Proof.
  intros Hvs Hpassed Hv. unfold Republish. rewrite Hvs.
  assert (Hval : validate (passed ++ v :: rest) b = Some err).
  { clear Hvs. induction Hpassed as [| v' passed Hv' _ IH]; simpl.
    - now rewrite Hv.
    - now rewrite Hv'. }
  now rewrite Hval.
Qed.

End Republish.

(** *** Two validators

    Messages are lists of bytes; the first validator refuses the empty
    message, the second one messages longer than four bytes; the topic is
    one byte in front. *)
Definition not_empty (b : list Z) : option string :=
  if bool_decide (b = []) then Some "empty"%string else None.

Definition not_long (b : list Z) : option string :=
  if bool_decide (4 < length b)%nat then Some "too long"%string else None.

Definition demo_republisher : @Republisher Z string :=
  mkRepublisher 9 [] 1 [not_empty; not_long].

Lemma Republish_first_error_witness :
  Republish 0 (λ b t, Ok (t :: b)) demo_republisher [1; 2; 3; 4; 5]
  = (demo_republisher, Some "too long"%string).
Proof.
  apply (Republish_first_error 0 (λ b t, Ok (t :: b)) demo_republisher [1; 2; 3; 4; 5]
           [not_empty] not_long []).
  - reflexivity.
  - repeat constructor.
  - reflexivity.
Defined.

Example republished :
  Republish 0 (λ b t, Ok (t :: b)) demo_republisher [1; 2]
  = (mkRepublisher 9 [(0, [9; 1; 2])] 1 [not_empty; not_long], None).
Proof. reflexivity. Qed.

End Republisher.

(** ** Package kadcast: the closest peers of the router
    (src/pkg/p2p/peer/syncmgr/syncmgr.go, second part) *)
Module Kadcast.
Local Open Scope Z_scope.

(** A peer: its address, its port and its identifier. *)
Record Peer : Type := mkPeer {
  ip : list Z;
  port : Z;
  id : list Z;
}.

#[global] Instance Peer_eq_dec : EqDecision Peer.
Proof. solve_decision. Defined.

(** A peer with its distance to a reference peer. *)
Record PeerSort : Type := mkPeerSort {
  sort_ip : list Z;
  sort_port : Z;
  sort_id : list Z;
  xorMyPeer : list Z;
}.

Record bucket : Type := mkBucket { entries : list Peer }.

(** The router, reduced to the buckets of its tree. *)
Record Router : Type := mkRouter { buckets : list bucket }.

Section Closest.
(** The distance of two identifiers and its comparison. *)
Context (xor : list Z -> list Z -> list Z).
Context (xorIsBigger : list Z -> list Z -> bool).
(** [sort.Sort] on [ByXORDist]. *)
Context (sort : list PeerSort -> list PeerSort).

Definition Less (a b : PeerSort) : bool :=
  negb (xorIsBigger (xorMyPeer a) (xorMyPeer b)).

(** The first loop of [getPeerSortDist]: the entries of all the buckets
    but bucket 0. *)
Fixpoint collect (buckIdx : nat) (bs : list bucket) (peerList : list Peer)
  : list Peer :=
  match bs with
  | [] => peerList
  | b :: bs =>
      collect (S buckIdx) bs
        (if decide (buckIdx <> 0%nat) then peerList ++ entries b else peerList)
  end.

(** Returns the complete list of Peers in order to be sorted as they have
    the xor distance in respect to a Peer as a parameter. *)
Definition getPeerSortDist (router : Router) (refPeer : Peer) : list PeerSort :=
  let peerList := collect 0 (buckets router) [] in
  foldl (λ peerListSort peer,
           (* We don't want to return the Peer struct of the Peer that is
              the reference. *)
           if decide (peer <> refPeer) then
             peerListSort ++
               [mkPeerSort (ip peer) (port peer) (id peer) (xor (id refPeer) (id peer))]
           else peerListSort)
        [] peerList.

Definition toPeer (peer : PeerSort) : Peer :=
  mkPeer (sort_ip peer) (sort_port peer) (sort_id peer).

(** The loop of [getXClosestPeersTo]: it appends, and only then looks at
    the number of peers it has. *)
Fixpoint closest_loop (peerNum : Z) (xPeers : list Peer) (peerList : list PeerSort)
  : list Peer :=
  match peerList with
  | [] => xPeers
  | peer :: peerList =>
      let xPeers := xPeers ++ [toPeer peer] in
      if decide (peerNum <= Z.of_nat (length xPeers)) then xPeers
      else closest_loop peerNum xPeers peerList
  end.

(** Returns a list of the selected number of closest peers in respect to a
    certain [Peer]. *)
Definition getXClosestPeersTo (router : Router) (peerNum : Z) (refPeer : Peer)
  : list Peer :=
  let peerList := getPeerSortDist router refPeer in
  closest_loop peerNum [] (sort peerList).

Lemma elem_of_collect (p : Peer) (buckIdx : nat) (bs : list bucket) (peerList : list Peer) :
  p ∈ collect buckIdx bs peerList <->
  p ∈ peerList \/
  exists j b, bs !! j = Some b /\ (buckIdx + j <> 0)%nat /\ p ∈ entries b.
Proof.
  revert buckIdx peerList. induction bs as [| b bs IH]; intros buckIdx peerList; simpl.
  - split; [now left | intros [Hin | (j & b & Hj & _)]; [exact Hin | discriminate]].
  - rewrite IH. split.
    + intros [Hin | (j & b' & Hj & Hne & Hin)].
      * destruct (decide (buckIdx <> 0%nat)) as [Hidx | Hidx]; [| now left].
        apply elem_of_app in Hin as [Hin | Hin]; [now left |].
        right. exists 0%nat, b. repeat split; [lia | exact Hin].
      * right. exists (S j), b'. repeat split; [exact Hj | lia | exact Hin].
    + intros [Hin | (j & b' & Hj & Hne & Hin)].
      * left. destruct (decide (buckIdx <> 0%nat)); [| exact Hin].
        apply elem_of_app. now left.
      * destruct j as [| j]; simpl in Hj.
        -- injection Hj as ->. left. rewrite decide_True by lia.
           apply elem_of_app. now right.
        -- right. exists j, b'. repeat split; [exact Hj | lia | exact Hin].
Qed.

Lemma getPeerSortDist_filter (router : Router) (refPeer : Peer) :
  getPeerSortDist router refPeer =
    (λ peer, mkPeerSort (ip peer) (port peer) (id peer) (xor (id refPeer) (id peer)))
      <$> filter (λ peer, peer <> refPeer) (collect 0 (buckets router) []).
Proof.
  unfold getPeerSortDist. cbv zeta.
  generalize (collect 0 (buckets router) []). intros peerList.
  induction peerList as [| peer peerList IH] using rev_ind; [reflexivity |].
  rewrite foldl_app, filter_app, fmap_app, IH. simpl. rewrite filter_cons, filter_nil.
  destruct (decide (peer <> refPeer)); simpl; [reflexivity | now rewrite app_nil_r].
Qed.

Lemma closest_loop_take (peerNum : Z) (xPeers : list Peer) (peerList : list PeerSort) :
  closest_loop peerNum xPeers peerList =
    xPeers ++
      (toPeer <$> take (Z.to_nat (Z.max 1 (peerNum - Z.of_nat (length xPeers)))) peerList).
Proof.
  revert xPeers. induction peerList as [| peer peerList IH]; intros xPeers; simpl.
  - now rewrite take_nil, app_nil_r.
  - rewrite length_app. simpl.
    destruct (decide (peerNum <= Z.of_nat (length xPeers + 1))) as [Hle | Hgt].
    + replace (Z.to_nat (Z.max 1 (peerNum - Z.of_nat (length xPeers)))) with 1%nat by lia.
      reflexivity.
    + rewrite IH, length_app. simpl.
      replace (Z.to_nat (Z.max 1 (peerNum - Z.of_nat (length xPeers))))
        with (S (Z.to_nat (Z.max 1 (peerNum - Z.of_nat (length xPeers + 1))))) by lia.
      simpl. now rewrite <- app_assoc.
Qed.

Lemma getXClosestPeersTo_take (router : Router) (peerNum : Z) (refPeer : Peer) :
  getXClosestPeersTo router peerNum refPeer =
    toPeer <$> take (Z.to_nat (Z.max 1 peerNum)) (sort (getPeerSortDist router refPeer)).
Proof.
  unfold getXClosestPeersTo. cbv zeta. rewrite closest_loop_take. simpl.
  now rewrite Z.sub_0_r.
Qed.

(** [getXClosestPeersTo] returns [peerNum] peers, or all the peers it knows
    when they are fewer; asked for no peer at all (or for a negative
    number) it still returns one, when it knows one. *)
Theorem getXClosestPeersTo_length (router : Router) (peerNum : Z) (refPeer : Peer) :
  (forall l, sort l ≡ₚ l) ->
  length (getXClosestPeersTo router peerNum refPeer) =
    Nat.min (Z.to_nat (Z.max 1 peerNum)) (length (getPeerSortDist router refPeer)).
Proof.
  intros Hsort. rewrite getXClosestPeersTo_take, length_fmap, length_take.
  now rewrite (Permutation_length (Hsort _)).
Qed.

(** The peers [getXClosestPeersTo] returns are entries of the buckets
    other than bucket 0, and none of them is the reference peer; when as
    many peers are asked for as are known, all of these are returned. *)
Theorem getXClosestPeersTo_known (router : Router) (peerNum : Z) (refPeer p : Peer) :
  (forall l, sort l ≡ₚ l) ->
  let known :=
    p <> refPeer /\
    exists buckIdx b,
      buckIdx <> 0%nat /\ buckets router !! buckIdx = Some b /\ p ∈ entries b in
  (p ∈ getXClosestPeersTo router peerNum refPeer -> known) /\
  (Z.of_nat (length (getPeerSortDist router refPeer)) <= peerNum ->
   known -> p ∈ getXClosestPeersTo router peerNum refPeer).
Proof.
  intros Hsort known. rewrite getXClosestPeersTo_take.
  assert (Hknown : (exists ps, p = toPeer ps /\ ps ∈ getPeerSortDist router refPeer)
                   <-> known).
  { rewrite getPeerSortDist_filter. unfold known. split.
    - intros (ps & -> & Hin).
      apply list_elem_of_fmap in Hin as (peer & -> & Hin).
      apply list_elem_of_filter in Hin as [Hne Hin].
      apply elem_of_collect in Hin as [Hin | (j & b & Hj & Hidx & Hin)];
        [inversion Hin |].
      destruct peer as [pip pport pid]. unfold toPeer. simpl.
      split; [exact Hne |]. exists j, b. repeat split; [lia | exact Hj | exact Hin].
    - intros (Hne & j & b & Hidx & Hj & Hin).
      exists (mkPeerSort (ip p) (port p) (id p) (xor (id refPeer) (id p))). split.
      + now destruct p.
      + apply list_elem_of_fmap. exists p. split; [reflexivity |].
        apply list_elem_of_filter. split; [exact Hne |].
        apply elem_of_collect. right. exists j, b.
        repeat split; [exact Hj | lia | exact Hin]. }
  split.
  - intros Hin. apply Hknown.
    apply list_elem_of_fmap in Hin as (ps & -> & Hin).
    exists ps. split; [reflexivity |].
    apply elem_of_take in Hin as (i & Hi & _).
    apply list_elem_of_lookup_2 in Hi. now rewrite Hsort in Hi.
  - intros Hall Hk. apply Hknown in Hk as (ps & -> & Hin).
    apply list_elem_of_fmap. exists ps. split; [reflexivity |].
    rewrite take_ge by (rewrite (Permutation_length (Hsort _)); lia).
    now rewrite Hsort.
Qed.

End Closest.

(** *** A router with three buckets

    Identifiers are one byte long; the distance is the exclusive or, and
    peers are sorted by merging. *)
Definition demo_xor (a b : list Z) : list Z := zip_with Z.lxor a b.

Definition closer (a b : PeerSort) : Prop :=
  match xorMyPeer a, xorMyPeer b with
  | x :: _, y :: _ => x <= y
  | _, _ => True
  end.

#[global] Instance closer_dec (a b : PeerSort) : Decision (closer a b).
Proof. unfold closer. destruct (xorMyPeer a), (xorMyPeer b); apply _. Defined.

Definition demo_sort : list PeerSort -> list PeerSort := merge_sort closer.

Definition peer_of (n : Z) : Peer := mkPeer [10; 0; 0; n] 7000 [n].

Definition demo_router : Router :=
  mkRouter [mkBucket [peer_of 1]; mkBucket [peer_of 12; peer_of 3]; mkBucket [peer_of 6]].

Example closest_two :
  getXClosestPeersTo demo_xor demo_sort demo_router 2 (peer_of 3)
  = [peer_of 6; peer_of 12].
Proof. vm_compute. reflexivity. Qed.

Lemma getXClosestPeersTo_length_witness :
  length (getXClosestPeersTo demo_xor demo_sort demo_router 0 (peer_of 3)) = 1%nat.
Proof.
  exact (getXClosestPeersTo_length demo_xor demo_sort demo_router 0 (peer_of 3)
           (merge_sort_Permutation closer)).
Defined.

Lemma getXClosestPeersTo_known_witness :
  peer_of 12 ∈ getXClosestPeersTo demo_xor demo_sort demo_router 2 (peer_of 3).
Proof.
  apply (getXClosestPeersTo_known demo_xor demo_sort demo_router 2 (peer_of 3) (peer_of 12)
           (merge_sort_Permutation closer)).
  - vm_compute. discriminate.
  - split; [discriminate |].
    exists 1%nat, (mkBucket [peer_of 12; peer_of 3]).
    repeat split; [discriminate | apply list_elem_of_here].
Defined.

End Kadcast.
